(** * libsupport: the layered configuration store and the logging shim

    A shallow embedding of [config.c] and [log.c].

    Conventions of the embedding.
    - A C string (a [const char *] pointing at NUL-terminated bytes) is the
      [string] of its bytes before the terminator; a pointer that may be
      [NULL] is an [option].
    - A caller's buffer ([char *buf]) is the [list ascii] of the bytes of
      its memory; [size_t] quantities are [nat], [int] quantities are [Z].
    - The three file-scope dictionaries of [config.c] are the fields of
      [config_state]; the file-scope variables of [log.c] are the fields of
      [log_state]. Calls to the system logger and writes to standard error
      are recorded as a list of [log_event]s.
    - The readers-writer lock brackets every operation and is not part of
      the sequential model. *)

From Stdlib Require Import ZArith Lia Bool Ascii.
From Stdlib Require String.
From stdpp Require Import base list strings.

Open Scope Z_scope.

(** ** C strings and libc *)

Module CStr.

Definition NUL : ascii := Ascii.zero.

Definition code (c : ascii) : Z := Z.of_nat (nat_of_ascii c).

(** [s[i]]: the byte at offset [i], the terminator at offset [strlen s]. *)
Fixpoint char_at (s : string) (i : nat) : ascii :=
  match s, i with
  | EmptyString, _ => NUL
  | String c _, O => c
  | String _ s', S i' => char_at s' i'
  end.

(** [s + i]: the string starting at offset [i <= strlen s]. *)
Fixpoint offset (s : string) (i : nat) : string :=
  match i, s with
  | O, _ => s
  | S i', String _ s' => offset s' i'
  | S _, EmptyString => EmptyString
  end.

Definition strlen (s : string) : nat := String.length s.

(** [strcmp a b == 0] *)
Definition strcmp_eq (a b : string) : bool := String.eqb a b.

(** [strncmp a b n == 0]: the first [n] bytes agree, or both strings end
    together before that. *)
Fixpoint strncmp_eq (a b : string) (n : nat) : bool :=
  match n with
  | O => true
  | S n' =>
      match a, b with
      | EmptyString, EmptyString => true
      | String c a', String d b' => Ascii.eqb c d && strncmp_eq a' b' n'
      | _, _ => false
      end
  end.

Definition is_between (lo hi : Z) (c : ascii) : bool :=
  (lo <=? code c) && (code c <=? hi).

Definition isdigit (c : ascii) : bool := is_between 48 57 c.

(** space, and the controls from horizontal tab to carriage return *)
Definition isspace (c : ascii) : bool :=
  (code c =? 32) || is_between 9 13 c.

Definition toupper (c : ascii) : ascii :=
  if is_between 97 122 c then ascii_of_nat (nat_of_ascii c - 32) else c.

Definition tolower (c : ascii) : ascii :=
  if is_between 65 90 c then ascii_of_nat (nat_of_ascii c + 32) else c.

(** [strcasecmp a b == 0] *)
Fixpoint strcasecmp_eq (a b : string) : bool :=
  match a, b with
  | EmptyString, EmptyString => true
  | String c a', String d b' =>
      Ascii.eqb (tolower c) (tolower d) && strcasecmp_eq a' b'
  | _, _ => false
  end.

Fixpoint skip_spaces (s : string) : string :=
  match s with
  | String c s' => if isspace c then skip_spaces s' else s
  | EmptyString => s
  end.

(** The value of the longest prefix of decimal digits, most significant
    first, continuing from [acc]. *)
Fixpoint digits_value (acc : Z) (s : string) : Z :=
  match s with
  | String c s' =>
      if isdigit c then digits_value (acc * 10 + (code c - 48)) s' else acc
  | EmptyString => acc
  end.

Definition LONG_MAX : Z := 2 ^ 63 - 1.
Definition LONG_MIN : Z := - 2 ^ 63.

(** [strtol(s, NULL, 10)] on LP64: white space, an optional sign, digits;
    out-of-range values saturate. *)
Definition strtol10 (s : string) : Z :=
  let t := skip_spaces s in
  let v :=
    match t with
    | String c t' =>
        if code c =? 45 then - digits_value 0 t'
        else if code c =? 43 then digits_value 0 t'
        else digits_value 0 t
    | EmptyString => 0
    end in
  Z.max LONG_MIN (Z.min LONG_MAX v).

(** Conversion of a [long] to the 32-bit [int]. *)
Definition int_of_long (v : Z) : Z := (v + 2 ^ 31) mod 2 ^ 32 - 2 ^ 31.

(** [atoi(s)], that is [(int) strtol(s, NULL, 10)]. *)
Definition atoi (s : string) : Z := int_of_long (strtol10 s).

(** [strdup]: a fresh copy of the bytes. *)
Definition strdup (s : string) : string := s.

Definition bytes (s : string) : list ascii := String.list_ascii_of_string s.

(** [strncpy(dst, src, n)]: exactly [n] bytes are written at the start of
    [dst], the bytes of [src] followed by NUL padding, with no terminator
    when [src] has [n] bytes or more. The caller guarantees
    [n <= length dst]. *)
Definition strncpy (dst : list ascii) (src : string) (n : nat) : list ascii :=
  take n (bytes src ++ replicate n NUL) ++ drop n dst.

(** The C string found at the start of a region of memory: its bytes up
    to the first NUL. *)
Fixpoint c_str (m : list ascii) : string :=
  match m with
  | [] => EmptyString
  | c :: m' => if Ascii.eqb c NUL then EmptyString else String c (c_str m')
  end.

(** No embedded NUL: what every C string satisfies. *)
Definition nul_free (s : string) : Prop := Forall (fun c => c <> NUL) (bytes s).

End CStr.

(** ** The iniparser dictionary *)

Module Iniparser.
Import CStr.

(** Modelled from the spec: [iniparser.h] and the library behind it are not
    part of the sources. The dictionary is the "ordered mapping from string
    key to string value ... values optionally absent (null)" of the data
    model, with the fields [n], [key] and [val] that [config.c] reads:
    entry [i] is [(key[i], val[i])] and [n] is the number of entries. *)
Definition entry : Type := string * option string.
Definition dictionary : Type := list entry.

Definition dict_n (d : dictionary) : nat := length d.

(** Modelled from the spec: [dictionary_new(0)], when the allocation
    succeeds. *)
Definition dictionary_new : dictionary := [].

(** Modelled from the spec: "getString(dictionary, key, fallback) ->
    string-or-fallback". The first entry stored under [key] supplies the
    result, an absent dictionary or an absent key the fallback. *)
Fixpoint dictionary_get (d : dictionary) (key : string) (def : option string)
  : option string :=
  match d with
  | [] => def
  | (k, v) :: d' => if String.eqb key k then v else dictionary_get d' key def
  end.

Definition iniparser_getstring (d : option dictionary) (key : string)
  (def : option string) : option string :=
  match d with
  | None => def
  | Some d => dictionary_get d key def
  end.

(** Modelled from the spec: "set(dictionary, key, value)". An entry stored
    under [key] is overwritten in place, a new key is appended; an absent
    dictionary is left absent. *)
Fixpoint dictionary_set (d : dictionary) (key : string) (val : option string)
  : dictionary :=
  match d with
  | [] => [(key, val)]
  | (k, v) :: d' =>
      if String.eqb key k then (k, val) :: d'
      else (k, v) :: dictionary_set d' key val
  end.

Definition iniparser_set (d : option dictionary) (key : string)
  (val : option string) : option dictionary :=
  match d with
  | None => None
  | Some d => Some (dictionary_set d key val)
  end.

End Iniparser.

(** What a C function that can run into undefined behaviour (a NULL
    dereference) produces. *)
Inductive outcome (A : Type) : Type :=
| Ret (a : A)
| Fault.
Arguments Ret {A} a.
Arguments Fault {A}.

(** ** config.c *)

Module Config.
Import CStr Iniparser.

(** [static dictionary *defaults, *overrides, *config;] *)
Record config_state : Type := mkConfig {
  defaults : option dictionary;
  overrides : option dictionary;
  config : option dictionary
}.

(** Before [config_init]: zero-initialised statics. *)
Definition uninitialized : config_state :=
  {| defaults := None; overrides := None; config := None |}.

Definition config_get_unlocked_ (st : config_state) (key : string)
  (defval : option string) : option string :=
  match config st with
  | Some _ =>
      iniparser_getstring (config st) key
        (iniparser_getstring (defaults st) key defval)
  | None =>
      iniparser_getstring (overrides st) key
        (iniparser_getstring (defaults st) key defval)
  end.

(** [config_init]. [new_defaults] and [new_overrides] are the results of
    the two [dictionary_new(0)] calls ([None] when the allocation fails);
    the callback, run after both exist, may change the store and returns
    its status. *)
Definition config_init (new_defaults new_overrides : option dictionary)
  (defaults_cb : option (config_state -> Z * config_state))
  (st : config_state) : Z * config_state :=
  let st1 := {| defaults := new_defaults; overrides := overrides st;
                config := config st |} in
  match new_defaults with
  | None => (-1, st1)
  | Some _ =>
      let st2 := {| defaults := new_defaults; overrides := new_overrides;
                    config := config st |} in
      match new_overrides with
      | None => (-1, st2)
      | Some _ =>
          match defaults_cb with
          | None => (0, st2)
          | Some cb =>
              let '(r, st3) := cb st2 in
              if r =? 0 then (0, st3) else (-1, st3)
          end
      end
  end.

Definition config_set (key : string) (value : option string)
  (st : config_state) : Z * config_state :=
  match overrides st with
  | Some _ =>
      (0, {| defaults := defaults st;
             overrides := iniparser_set (overrides st) key value;
             config := config st |})
  | None =>
      (0, {| defaults := defaults st;
             overrides := overrides st;
             config := iniparser_set (config st) key value |})
  end.

Definition config_set_default (key : string) (value : option string)
  (st : config_state) : Z * config_state :=
  match defaults st with
  | Some _ =>
      (0, {| defaults := iniparser_set (defaults st) key value;
             overrides := overrides st;
             config := config st |})
  | None =>
      match iniparser_getstring (config st) key None with
      | None =>
          (0, {| defaults := defaults st;
                 overrides := overrides st;
                 config := iniparser_set (config st) key value |})
      | Some _ => (0, st)
      end
  end.

(** [config_get]: the required length, and the buffer as it is left.
    [buf] holds the bytes of the caller's buffer, of which the caller
    promises at least [bufsize]; [defval] is an object of its own, not
    part of the buffer. *)
Definition config_get (st : config_state) (key : string)
  (defval : option string) (buf : option (list ascii)) (bufsize : nat)
  : nat * option (list ascii) :=
  let ret := config_get_unlocked_ st key defval in
  let r := match ret with
           | Some s => (strlen s + 1)%nat
           | None => 0%nat
           end in
  match buf, bufsize with
  | None, _ => (r, None)
  | Some b, O => (r, Some b)
  | Some b, S _ =>
      let b1 := <[0%nat := NUL]> b in
      let b2 := match ret with
                | Some s => strncpy b1 s bufsize
                | None => <[0%nat := NUL]> b1
                end in
      (r, Some (<[(bufsize - 1)%nat := NUL]> b2))
  end.

(** [config_geta]: a fresh copy of the resolved string, or NULL. *)
Definition config_geta (st : config_state) (key : string)
  (defval : option string) : option string :=
  match config_get_unlocked_ st key defval with
  | Some s => Some (strdup s)
  | None => None
  end.

Definition config_get_int (st : config_state) (key : string) (defval : Z)
  : Z :=
  match config_get_unlocked_ st key None with
  | Some s => atoi s
  | None => defval
  end.

Definition config_get_bool (st : config_state) (key : string) (defval : Z)
  : Z :=
  let r :=
    match config_get_unlocked_ st key None with
    | Some s =>
        let c := toupper (char_at s 0) in
        if Ascii.eqb c "Y" || Ascii.eqb c "T" || Ascii.eqb c "1"
        then -1
        else atoi s
    | None => defval
    end in
  if r =? 0 then 0 else -1.

Section GetAll.

(** The callback may keep state of its own, of type [A]. *)
Context {A : Type}.
Variable fn : string -> option string -> A -> Z * A.

(** The test guarding the call of [fn] for one entry. *)
Definition entry_matches (section : string) (key : option string)
  (k : string) : bool :=
  let l := strlen section in
  strncmp_eq k section l && Ascii.eqb (char_at k l) ":" &&
  match key with
  | None => true
  | Some key => strcmp_eq (offset k (l + 1)) key
  end.

(** The [for] loop of [config_get_all] from entry [c] on, given as the
    entries that remain. It yields the return value, the callback's final
    state and the calls made, in order. *)
Fixpoint get_all_loop (section : string) (key : option string)
  (d : dictionary) (a : A) : Z * A * list entry :=
  match d with
  | [] => (0, a, [])
  | (k, v) :: d' =>
      if entry_matches section key k then
        let '(x, a') := fn k v a in
        if x =? 0 then
          let '(r, a'', calls) := get_all_loop section key d' a' in
          (r, a'', (k, v) :: calls)
        else (-1, a', [(k, v)])
      else get_all_loop section key d' a
  end.

Definition config_get_all (st : config_state) (section : string)
  (key : option string) (a : A) : outcome (Z * A * list entry) :=
  let dict := match config st with
              | Some _ => config st
              | None => overrides st
              end in
  match dict with
  | None => Fault
  | Some d => Ret (get_all_loop section key d a)
  end.

End GetAll.

End Config.

(** ** log.c *)

Module Log.
Import CStr Iniparser Config.

(** Levels, facilities and options of [<syslog.h>] (glibc values). *)
Definition LOG_EMERG : Z := 0.
Definition LOG_ALERT : Z := 1.
Definition LOG_CRIT : Z := 2.
Definition LOG_ERR : Z := 3.
Definition LOG_WARNING : Z := 4.
Definition LOG_NOTICE : Z := 5.
Definition LOG_INFO : Z := 6.
Definition LOG_DEBUG : Z := 7.

Definition LOG_KERN : Z := Z.shiftl 0 3.
Definition LOG_USER : Z := Z.shiftl 1 3.
Definition LOG_MAIL : Z := Z.shiftl 2 3.
Definition LOG_DAEMON : Z := Z.shiftl 3 3.
Definition LOG_AUTH : Z := Z.shiftl 4 3.
Definition LOG_SYSLOG : Z := Z.shiftl 5 3.
Definition LOG_LPR : Z := Z.shiftl 6 3.
Definition LOG_NEWS : Z := Z.shiftl 7 3.
Definition LOG_UUCP : Z := Z.shiftl 8 3.
Definition LOG_CRON : Z := Z.shiftl 9 3.
Definition LOG_AUTHPRIV : Z := Z.shiftl 10 3.
Definition LOG_FTP : Z := Z.shiftl 11 3.
Definition LOG_LOCAL (i : Z) : Z := Z.shiftl (16 + i) 3.

Definition LOG_PID : Z := 1.
Definition LOG_NDELAY : Z := 8.
Definition LOG_PERROR : Z := 32.

(** The file-scope variables of [log.c]. [log_ident] is never NULL here. *)
Record log_state : Type := mkLog {
  log_is_open : Z;
  log_use_config : Z;
  log_stderr : Z;
  log_level : Z;
  log_facility : Z;
  log_syslog : Z;
  log_ident : string
}.

(** The initial values of the statics. *)
Definition log_initial : log_state :=
  {| log_is_open := 0; log_use_config := 0; log_stderr := 0;
     log_level := LOG_NOTICE; log_facility := LOG_DAEMON; log_syslog := 1;
     log_ident := "(unknown)" |}.

Definition log_parse_level (level : string) : Z :=
  if strcasecmp_eq level "emerg" || strcasecmp_eq level "emergency"
  then LOG_EMERG
  else if strcasecmp_eq level "alert" then LOG_ALERT
  else if strcasecmp_eq level "crit" || strcasecmp_eq level "critical"
  then LOG_CRIT
  else if strcasecmp_eq level "err" || strcasecmp_eq level "error"
  then LOG_ERR
  else if strcasecmp_eq level "warn" || strcasecmp_eq level "warning"
  then LOG_WARNING
  else if strcasecmp_eq level "notice" then LOG_NOTICE
  else if strcasecmp_eq level "info" then LOG_INFO
  else if strcasecmp_eq level "debug" then LOG_DEBUG
  else atoi level.

(** With the facilities glibc defines: [LOG_SECURITY] and [LOG_REMOTAUTH]
    are not among them, so those two tests are compiled out. *)
Definition log_parse_facility (facility : string) : Z :=
  if strcasecmp_eq facility "auth" then LOG_AUTH
  else if strcasecmp_eq facility "authpriv" then LOG_AUTHPRIV
  else if strcasecmp_eq facility "cron" then LOG_CRON
  else if strcasecmp_eq facility "daemon" then LOG_DAEMON
  else if strcasecmp_eq facility "ftp" then LOG_FTP
  else if strcasecmp_eq facility "kern" then LOG_KERN
  else if strcasecmp_eq facility "lpr" then LOG_LPR
  else if strcasecmp_eq facility "mail" then LOG_MAIL
  else if strcasecmp_eq facility "news" then LOG_NEWS
  else if strcasecmp_eq facility "syslog" then LOG_SYSLOG
  else if strcasecmp_eq facility "uucp" then LOG_UUCP
  else if strcasecmp_eq facility "user" then LOG_USER
  else if strcasecmp_eq facility "local0" then LOG_LOCAL 0
  else if strcasecmp_eq facility "local1" then LOG_LOCAL 1
  else if strcasecmp_eq facility "local2" then LOG_LOCAL 2
  else if strcasecmp_eq facility "local3" then LOG_LOCAL 3
  else if strcasecmp_eq facility "local4" then LOG_LOCAL 4
  else if strcasecmp_eq facility "local5" then LOG_LOCAL 5
  else if strcasecmp_eq facility "local6" then LOG_LOCAL 6
  else if strcasecmp_eq facility "local7" then LOG_LOCAL 7
  else LOG_USER.

(** A format string together with its argument list. *)
Inductive argument : Type :=
| ArgString (s : option string)
| ArgInt (i : Z).

Record message : Type := mkMessage {
  format : string;
  arguments : list argument
}.

(** What the logger does to the outside world. *)
Inductive log_event : Type :=
| Closelog
| Openlog (ident : string) (logopt facility : Z)
| Vsyslog (level : Z) (m : message)
| StderrText (text : string)
| StderrFormatted (m : message).

Definition with_is_open (v : Z) (st : log_state) : log_state :=
  {| log_is_open := v; log_use_config := log_use_config st;
     log_stderr := log_stderr st; log_level := log_level st;
     log_facility := log_facility st; log_syslog := log_syslog st;
     log_ident := log_ident st |}.

Definition log_reset (st : log_state) : log_state * list log_event :=
  (with_is_open 0 st,
   if negb (log_is_open st =? 0) && negb (log_syslog st =? 0)
   then [Closelog] else []).

Definition set_field (f : log_state -> log_state) (st : log_state)
  : log_state * list log_event :=
  log_reset (f st).

Definition log_set_ident (ident : string) : log_state -> log_state * list log_event :=
  set_field (fun st =>
    {| log_is_open := log_is_open st; log_use_config := 0;
       log_stderr := log_stderr st; log_level := log_level st;
       log_facility := log_facility st; log_syslog := log_syslog st;
       log_ident := ident |}).

Definition log_set_level (level : Z) : log_state -> log_state * list log_event :=
  set_field (fun st =>
    {| log_is_open := log_is_open st; log_use_config := 0;
       log_stderr := log_stderr st; log_level := level;
       log_facility := log_facility st; log_syslog := log_syslog st;
       log_ident := log_ident st |}).

Definition log_set_facility (facility : Z) : log_state -> log_state * list log_event :=
  set_field (fun st =>
    {| log_is_open := log_is_open st; log_use_config := 0;
       log_stderr := log_stderr st; log_level := log_level st;
       log_facility := facility; log_syslog := log_syslog st;
       log_ident := log_ident st |}).

Definition log_set_stderr (val : Z) : log_state -> log_state * list log_event :=
  set_field (fun st =>
    {| log_is_open := log_is_open st; log_use_config := 0;
       log_stderr := val; log_level := log_level st;
       log_facility := log_facility st; log_syslog := log_syslog st;
       log_ident := log_ident st |}).

Definition log_set_syslog (val : Z) : log_state -> log_state * list log_event :=
  set_field (fun st =>
    {| log_is_open := log_is_open st; log_use_config := 0;
       log_stderr := log_stderr st; log_level := log_level st;
       log_facility := log_facility st; log_syslog := val;
       log_ident := log_ident st |}).

Definition log_set_use_config (val : Z) (st : log_state)
  : log_state * list log_event :=
  if log_use_config st =? val then (st, [])
  else
    log_reset
      {| log_is_open := log_is_open st; log_use_config := val;
         log_stderr := log_stderr st; log_level := log_level st;
         log_facility := log_facility st; log_syslog := log_syslog st;
         log_ident := log_ident st |}.

(** [log_open]. [buf] is the automatic array [char buf[32]], whose bytes
    are indeterminate on entry; [cfg] is the configuration store the
    getters read. *)
Definition log_open (cfg : config_state) (buf : list ascii) (st : log_state)
  : log_state * list log_event :=
  let '(st0, ev0) :=
    if log_is_open st =? 0 then (st, []) else log_reset st in
  let logopt := Z.lor LOG_NDELAY LOG_PID in
  let '(st1, ident) :=
    if log_use_config st0 =? 0 then (st0, log_ident st0)
    else
      let v_stderr := config_get_bool cfg "log:stderr" 0 in
      let v_syslog := config_get_bool cfg "log:syslog" 1 in
      let buf1 := default buf
        (snd (config_get cfg "log:level" (Some "notice") (Some buf) 32)) in
      let v_level := log_parse_level (c_str buf1) in
      let buf2 := default buf1
        (snd (config_get cfg "log:facility" (Some "user") (Some buf1) 32)) in
      let v_facility := log_parse_facility (c_str buf2) in
      let buf3 := default buf2
        (snd (config_get cfg "log:ident" (Some "(none)") (Some buf2) 32)) in
      ({| log_is_open := log_is_open st0;
          log_use_config := log_use_config st0;
          log_stderr := v_stderr; log_level := v_level;
          log_facility := v_facility; log_syslog := v_syslog;
          log_ident := log_ident st0 |}, c_str buf3) in
  let logopt := if log_stderr st1 =? 0 then logopt
                else Z.lor logopt LOG_PERROR in
  let ev1 := if log_syslog st1 =? 0 then []
             else [Openlog ident logopt (log_facility st1)] in
  (with_is_open 1 st1, ev0 ++ ev1).

Definition log_vprintf (cfg : config_state) (buf : list ascii) (level : Z)
  (m : message) (st : log_state) : log_state * list log_event :=
  let '(st1, ev) :=
    if log_is_open st =? 0 then log_open cfg buf st else (st, []) in
  if level >? log_level st1 then (st1, ev)
  else if negb (log_syslog st1 =? 0) then (st1, ev ++ [Vsyslog level m])
  else
    (st1, ev ++ [StderrText (log_ident st1 +:+ ": "); StderrFormatted m]).

(** [log_printf] gathers its variable arguments and calls [log_vprintf]. *)
Definition log_printf := log_vprintf.

End Log.

(** ** config.c, continued: loading the file *)

Module Loader.
Import CStr Iniparser Config Log.

Section Loading.

(** The parsing collaborator: what [iniparser_load(file)] returns for each
    path, [None] when the file cannot be read or parsed. *)
Variable iniparser_load : option string -> option dictionary.

(** The [for] loop of [config_load]: every entry of [overrides], in
    order, is set in the parsed dictionary. *)
Definition merge_overrides (cfg ovr : dictionary) : dictionary :=
  fold_left (fun c e => dictionary_set c (fst e) (snd e)) ovr cfg.

(** [config_load]: what the debug line does to the logger ([lg] is the
    logger's state, [buf] the array of [log_open] should the channel have
    to be opened), and what becomes of the store. With [overrides]
    already freed the loop dereferences NULL. *)
Definition config_load (default_path : option string) (buf : list ascii)
  (st : config_state) (lg : log_state)
  : (log_state * list log_event) * outcome (Z * config_state) :=
  let file := config_get_unlocked_ st "global:configFile" default_path in
  let logged :=
    log_printf st buf LOG_DEBUG
      {| format := "loading configuration file '%s'" +:+ String "010" EmptyString;
         arguments := [ArgString file] |} lg in
  match iniparser_load file with
  | None =>
      (logged,
       Ret (-1, {| defaults := defaults st; overrides := overrides st;
                   config := None |}))
  | Some cfg =>
      match overrides st with
      | None => (logged, Fault)
      | Some ovr =>
          (logged,
           Ret (0, {| defaults := defaults st; overrides := None;
                      config := Some (merge_overrides cfg ovr) |}))
      end
  end.

End Loading.

End Loader.

(** ** The specification's vocabulary *)

Module Spec.
Import CStr Iniparser Config Log Loader.

(** "[d] has K": some entry of the dictionary is stored under [K]. *)
Definition has_key (d : dictionary) (K : string) : bool :=
  existsb (fun e => String.eqb K (fst e)) d.

(** "[d[K]]": the value of the first entry stored under [K]. *)
Definition value_of (d : dictionary) (K : string) : option string :=
  match List.find (fun e => String.eqb K (fst e)) d with
  | Some e => snd e
  | None => None
  end.

(** A dictionary pointer that is set and whose dictionary has [K]. *)
Definition holds (d : option dictionary) (K : string) : bool :=
  match d with
  | Some d => has_key d K
  | None => false
  end.

Definition held_value (d : option dictionary) (K : string) : option string :=
  match d with
  | Some d => value_of d K
  | None => None
  end.

Definition exists_ (d : option dictionary) : bool :=
  match d with
  | Some _ => true
  | None => false
  end.

(** The resolution invariant, in the words of the data model:
    [config[K]] if [config] exists and has K; else [overrides[K]] if
    [config] does not exist yet and [overrides] has K; else [defaults[K]];
    else the caller-supplied fallback. *)
Definition tier_resolution (st : config_state) (K : string)
  (fallback : option string) : option string :=
  if holds (config st) K then held_value (config st) K
  else if negb (exists_ (config st)) && holds (overrides st) K
  then held_value (overrides st) K
  else if holds (defaults st) K then held_value (defaults st) K
  else fallback.

(** Dictionaries built by [dictionary_set] from [dictionary_new] store each
    key once. *)
Definition unique_keys (d : dictionary) : Prop := NoDup (d.*1).

(** The calls a program makes to change the store before it loads the
    file. *)
Inductive setter : Type :=
| CallSet (key : string) (value : option string)
| CallSetDefault (key : string) (value : option string).

Definition run_setter (s : setter) (st : config_state) : config_state :=
  match s with
  | CallSet k v => snd (config_set k v st)
  | CallSetDefault k v => snd (config_set_default k v st)
  end.

Definition run_setters (l : list setter) (st : config_state) : config_state :=
  fold_left (fun st s => run_setter s st) l st.

Definition sets_key (K : string) (s : setter) : bool :=
  match s with
  | CallSet k _ => String.eqb K k
  | CallSetDefault _ _ => false
  end.

(** "The key consists of [section], a colon, and (when [key] is non-null)
    a suffix equal to [key]." *)
Definition key_selected (section : string) (key : option string)
  (k : string) : bool :=
  match key with
  | None => String.prefix (section +:+ ":") k
  | Some key => String.eqb k (section +:+ ":" +:+ key)
  end.

Section Visit.
Context {A : Type}.
Variable fn : string -> option string -> A -> Z * A.

(** Calling back on each entry of [l] in order until a call returns
    non-zero: the status (failure [-1] after such a call, success [0]
    otherwise), the callback's final state and the calls made. *)
Fixpoint visit (l : list entry) (a : A) : Z * A * list entry :=
  match l with
  | [] => (0, a, [])
  | (k, v) :: l' =>
      let '(x, a') := fn k v a in
      if x =? 0 then
        let '(r, a'', calls) := visit l' a' in (r, a'', (k, v) :: calls)
      else (-1, a', [(k, v)])
  end.

End Visit.

(** "The first character is 'Y', 'T' or '1' case-insensitively." *)
Definition starts_affirmative (s : string) : bool :=
  match s with
  | String c _ =>
      existsb (Ascii.eqb c) ["Y"; "y"; "T"; "t"; "1"]%char
  | EmptyString => false
  end.

Definition truthiness (v : Z) : Z := if v =? 0 then 0 else -1.

(** The dictionary [config_get_all] walks. *)
Definition resolved_dictionary (st : config_state) : option dictionary :=
  match config st with
  | Some c => Some c
  | None => overrides st
  end.

(** The outside-world effect of one emission, from the logger's state once
    the channel is open. *)
Definition emission (st : log_state) (level : Z) (m : message)
  : list log_event :=
  if level >? log_level st then []
  else if negb (log_syslog st =? 0) then [Vsyslog level m]
  else [StderrText (log_ident st +:+ ": "); StderrFormatted m].

(** The state in which [log_vprintf] decides: the state as it is when the
    channel is open, the state [log_open] leaves when it is not. *)
Definition opened (cfg : config_state) (buf : list ascii)
  (st : log_state) : log_state * list log_event :=
  if log_is_open st =? 0 then log_open cfg buf st else (st, []).

(** The events that open or close the channel, as opposed to those that
    carry a message. *)
Definition channel_event (e : log_event) : Prop :=
  match e with
  | Closelog | Openlog _ _ _ => True
  | _ => False
  end.

End Spec.

(** ** Sample stores *)

Module Sample.
Import CStr Iniparser Config.

(** An initialised store with one default and one pending override. *)
Definition store0 : config_state :=
  {| defaults := Some [("log:level", Some "debug")];
     overrides := Some [("x:y", Some "o")];
     config := None |}.

(** A parser that reads one file, whose only entry is [s:k = file]. *)
Definition one_file (path : option string) : option dictionary :=
  match path with
  | Some "/etc/x.conf" => Some [("s:k", Some "file")]
  | _ => None
  end.

(** A callback that counts its calls and stops at the key [log:stop]. *)
Definition stop_at_stop (k : string) (v : option string) (n : nat) : Z * nat :=
  (if String.eqb k "log:stop" then 1 else 0, S n).

Definition store_log : config_state :=
  {| defaults := Some [("log:ident", Some "svc")];
     overrides := None;
     config := Some [("log:level", Some "info"); ("other:x", None);
                     ("log:stop", Some "1"); ("log:after", Some "2")] |}.

End Sample.

(** ** Invariants and code ranges *)

Module Wf.
Import CStr Iniparser Config Log Spec.

Definition unique_if_set (d : option dictionary) : Prop :=
  match d with
  | Some d => unique_keys d
  | None => True
  end.

(** Every dictionary of the store holds each key once. *)
Definition unique_store (st : config_state) : Prop :=
  unique_if_set (defaults st) /\
  unique_if_set (overrides st) /\
  unique_if_set (config st).

(** The facility codes of [<syslog.h>]: [0 << 3] up to [23 << 3]. *)
Definition facility_code (f : Z) : Prop :=
  0 <= f <= Z.shiftl 23 3 /\ Z.land f 7 = 0.

(** The range of the 32-bit [int]. *)
Definition int_range (v : Z) : Prop := - 2 ^ 31 <= v < 2 ^ 31.

(** The five setters of [log.c] that take the logger out of
    configuration-driven mode. *)
Inductive direct_setter : Type :=
| SetIdent (ident : string)
| SetLevel (level : Z)
| SetFacility (facility : Z)
| SetStderr (val : Z)
| SetSyslog (val : Z).

Definition run_direct_setter (s : direct_setter) (st : log_state)
  : log_state * list log_event :=
  match s with
  | SetIdent i => log_set_ident i st
  | SetLevel l => log_set_level l st
  | SetFacility f => log_set_facility f st
  | SetStderr v => log_set_stderr v st
  | SetSyslog v => log_set_syslog v st
  end.

(** The values of the variables a setter is meant to leave, before the
    channel is reset. *)
Definition assigned (s : direct_setter) (st : log_state) : log_state :=
  {| log_is_open := log_is_open st;
     log_use_config := 0;
     log_stderr := match s with SetStderr v => v | _ => log_stderr st end;
     log_level := match s with SetLevel l => l | _ => log_level st end;
     log_facility :=
       match s with SetFacility f => f | _ => log_facility st end;
     log_syslog := match s with SetSyslog v => v | _ => log_syslog st end;
     log_ident := match s with SetIdent i => i | _ => log_ident st end |}.

(** A string with its capital letters replaced by small ones. *)
Fixpoint lowercase (s : string) : string :=
  match s with
  | EmptyString => EmptyString
  | String c s' => String (tolower c) (lowercase s')
  end.

(** What [log_open] finds in its 32-byte array after
    [config_get(key, def, buf, sizeof(buf))]: the first 31 bytes of the
    value the key resolves to, the empty string when it resolves to
    nothing. *)
Definition read31 (cfg : config_state) (key def : string) : string :=
  match config_get_unlocked_ cfg key (Some def) with
  | Some s => String.substring 0 31 s
  | None => EmptyString
  end.

Definition resolves_nul_free (cfg : config_state) (key def : string) : Prop :=
  match config_get_unlocked_ cfg key (Some def) with
  | Some s => nul_free s
  | None => True
  end.

(** The option word [log_open] passes to [openlog]. *)
Definition open_options (st : log_state) : Z :=
  if log_stderr st =? 0 then Z.lor LOG_NDELAY LOG_PID
  else Z.lor (Z.lor LOG_NDELAY LOG_PID) LOG_PERROR.

End Wf.

(** ** Properties of the dictionary *)

Section DictionaryFacts.
Import CStr Iniparser Config Loader Spec.

Lemma dictionary_get_value_of d K def :
  dictionary_get d K def = if has_key d K then value_of d K else def.
Proof.
  unfold has_key, value_of.
  induction d as [|[k v] d IH]; simpl; [reflexivity|].
  destruct (String.eqb K k); simpl; [reflexivity|exact IH].
Qed.

Lemma iniparser_getstring_holds d K def :
  iniparser_getstring d K def = if holds d K then held_value d K else def.
Proof.
  destruct d as [d|]; simpl; [apply dictionary_get_value_of|reflexivity].
Qed.

Lemma has_key_elem d K : has_key d K = true <-> K ∈ d.*1.
Proof.
  unfold has_key. induction d as [|[k v] d IH]; simpl.
  - split; [discriminate|]. intros H. inversion H.
  - rewrite orb_true_iff, IH, String.eqb_eq, elem_of_cons. reflexivity.
Qed.

Lemma has_key_set d k v K :
  has_key (dictionary_set d k v) K = String.eqb K k || has_key d K.
Proof.
  unfold has_key. induction d as [|[k0 v0] d IH]; simpl.
  - reflexivity.
  - destruct (String.eqb k k0) eqn:E; simpl.
    + apply String.eqb_eq in E. subst k0.
      destruct (String.eqb K k); reflexivity.
    + rewrite IH. destruct (String.eqb K k0), (String.eqb K k); reflexivity.
Qed.

Lemma dictionary_get_set_same d k v def :
  dictionary_get (dictionary_set d k v) k def = v.
Proof.
  induction d as [|[k0 v0] d IH]; simpl.
  - rewrite String.eqb_refl. reflexivity.
  - destruct (String.eqb k k0) eqn:E; simpl; rewrite E; [reflexivity|exact IH].
Qed.

Lemma dictionary_get_set_other d k v K def :
  K <> k ->
  dictionary_get (dictionary_set d k v) K def = dictionary_get d K def.
Proof.
  intros Hne. apply String.eqb_neq in Hne.
  induction d as [|[k0 v0] d IH]; simpl.
  - rewrite Hne. reflexivity.
  - destruct (String.eqb k k0) eqn:E; simpl.
    + apply String.eqb_eq in E. subst k0. rewrite Hne. reflexivity.
    + rewrite IH. reflexivity.
Qed.

Lemma dictionary_set_keys_unique d k v :
  unique_keys d -> unique_keys (dictionary_set d k v).
Proof.
  unfold unique_keys. induction d as [|[k0 v0] d IH]; simpl; intros Hd.
  - apply NoDup_singleton.
  - apply NoDup_cons in Hd as [Hn Hd].
    destruct (String.eqb k k0) eqn:E; simpl.
    + apply NoDup_cons. split; assumption.
    + apply NoDup_cons. split; [|apply IH, Hd].
      intros Hin. apply has_key_elem in Hin.
      rewrite has_key_set in Hin. apply orb_true_iff in Hin as [Hin|Hin].
      * rewrite String.eqb_sym in Hin. congruence.
      * apply has_key_elem in Hin. contradiction.
Qed.

(** A key that no override names keeps the value parsed from the file. *)
Lemma merge_overrides_absent ovr cfg K def :
  has_key ovr K = false ->
  dictionary_get (merge_overrides cfg ovr) K def = dictionary_get cfg K def.
Proof.
  unfold merge_overrides. revert cfg.
  induction ovr as [|[k v] ovr IH]; simpl; intros cfg Hk; [reflexivity|].
  apply orb_false_iff in Hk as [Hne Hk].
  rewrite IH by exact Hk.
  apply dictionary_get_set_other. apply String.eqb_neq. exact Hne.
Qed.

(** A key some override names gets the override's value. *)
Lemma merge_overrides_present ovr cfg K def :
  unique_keys ovr -> has_key ovr K = true ->
  dictionary_get (merge_overrides cfg ovr) K def = value_of ovr K.
Proof.
  unfold merge_overrides, unique_keys. revert cfg.
  induction ovr as [|[k v] ovr IH]; simpl; intros cfg Hu Hk; [discriminate|].
  apply NoDup_cons in Hu as [Hn Hu].
  unfold value_of. simpl.
  destruct (String.eqb K k) eqn:E; simpl in *.
  - apply String.eqb_eq in E. subst k.
    assert (Ha : has_key ovr K = false).
    { destruct (has_key ovr K) eqn:Hh; [|reflexivity].
      apply has_key_elem in Hh. contradiction. }
    fold (merge_overrides (dictionary_set cfg K v) ovr).
    rewrite merge_overrides_absent by exact Ha.
    apply dictionary_get_set_same.
  - apply IH; assumption.
Qed.

End DictionaryFacts.

(** ** The configuration store *)

Section ConfigFacts.
Import CStr Iniparser Config Log Loader Spec.

Variable iniparser_load : option string -> option dictionary.

Lemma config_get_unlocked_tiers st K fallback :
  config_get_unlocked_ st K fallback = tier_resolution st K fallback.
Proof.
  unfold config_get_unlocked_, tier_resolution.
  destruct (config st) as [c|]; rewrite !iniparser_getstring_holds; simpl.
  - destruct (has_key c K); reflexivity.
  - reflexivity.
Qed.

(** What a successful load leaves behind. *)
Lemma config_load_success default_path buf st lg ovr cfg :
  overrides st = Some ovr ->
  iniparser_load (config_get_unlocked_ st "global:configFile" default_path)
    = Some cfg ->
  snd (config_load iniparser_load default_path buf st lg) =
    Ret (0, {| defaults := defaults st; overrides := None;
               config := Some (merge_overrides cfg ovr) |}).
Proof.
  intros Ho Hl. unfold config_load. rewrite Hl, Ho. reflexivity.
Qed.

(** Whatever the parser says, the debug line is the only thing the load
    does to the logger. *)
Lemma config_load_logs default_path buf st lg :
  fst (config_load iniparser_load default_path buf st lg) =
  log_printf st buf LOG_DEBUG
    {| format := "loading configuration file '%s'" +:+ String "010" EmptyString;
       arguments :=
         [ArgString
            (config_get_unlocked_ st "global:configFile" default_path)] |}
    lg.
Proof.
  unfold config_load.
  destruct (iniparser_load _); [destruct (overrides st)|]; reflexivity.
Qed.

(** A store as [config_init] leaves it when both allocations succeed and
    no callback is given. *)
Lemma config_init_initialized st :
  config_init (Some dictionary_new) (Some dictionary_new) None st =
    (0, {| defaults := Some []; overrides := Some []; config := config st |})
  /\ unique_keys dictionary_new.
Proof.
  split; [reflexivity|apply NoDup_nil_2].
Qed.

(** Setters that do not [config_set] the key K leave K's pending override
    alone, and keep the store unloaded with unique keys. *)
Lemma run_setters_preserve K l : forall st ovr,
  config st = None -> overrides st = Some ovr -> unique_keys ovr ->
  forallb (fun s => negb (sets_key K s)) l = true ->
  exists ovr',
    config (run_setters l st) = None /\
    overrides (run_setters l st) = Some ovr' /\
    unique_keys ovr' /\
    has_key ovr' K = has_key ovr K /\
    value_of ovr' K = value_of ovr K.
Proof.
  unfold run_setters.
  induction l as [|s l IH]; simpl; intros st ovr Hc Ho Hu Hl.
  - exists ovr. auto.
  - apply andb_true_iff in Hl as [Hs Hl].
    destruct s as [k v|k v]; simpl in *.
    + unfold config_set. rewrite Ho. simpl.
      apply negb_true_iff in Hs.
      edestruct (IH {| defaults := defaults st;
                       overrides := Some (dictionary_set ovr k v);
                       config := config st |})
        as (ovr' & H1 & H2 & H3 & H4 & H5);
        [exact Hc|reflexivity|apply dictionary_set_keys_unique, Hu|exact Hl|].
      exists ovr'. repeat split; try assumption.
      * rewrite H4, has_key_set, Hs. reflexivity.
      * rewrite H5.
        pose proof (dictionary_get_value_of (dictionary_set ovr k v) K None) as E1.
        pose proof (dictionary_get_value_of ovr K None) as E2.
        rewrite dictionary_get_set_other in E1
          by (apply String.eqb_neq; exact Hs).
        rewrite has_key_set, Hs in E1. simpl in E1.
        destruct (has_key ovr K) eqn:Hh.
        -- congruence.
        -- unfold value_of.
           assert (Hf : forall d, has_key d K = false ->
                     List.find (fun e => String.eqb K (fst e)) d = None).
           { clear. unfold has_key. induction d as [|e d IHd]; simpl;
               [reflexivity|]. intros H.
             apply orb_false_iff in H as [H1 H2]. rewrite H1. auto. }
           rewrite (Hf ovr Hh).
           rewrite Hf; [reflexivity|]. rewrite has_key_set, Hs, Hh. reflexivity.
    + unfold config_set_default.
      destruct (defaults st) eqn:Hd; simpl.
      * apply (IH _ ovr); auto.
      * rewrite Hc. simpl. apply (IH _ ovr); auto.
Qed.

(** C1: a lookup resolves in tier order, the value in [config] if
    [config] exists and contains K, else the value in [overrides] if
    [config] does not exist and [overrides] contains K, else the value in
    [defaults] if it contains K, else the caller's fallback; and after a
    successful load a key of the file that no override names reads as the
    file's value. *)
Theorem C1_tier_order_resolution (st : config_state) (K : string)
  (fallback default_path : option string) (buf : list ascii)
  (lg : log_state) :
  config_get_unlocked_ st K fallback = tier_resolution st K fallback /\
  (forall ovr file,
     overrides st = Some ovr ->
     iniparser_load
       (config_get_unlocked_ st "global:configFile" default_path) = Some file ->
     has_key file K = true ->
     has_key ovr K = false ->
     exists st',
       snd (config_load iniparser_load default_path buf st lg)
         = Ret (0, st') /\
       config_get_unlocked_ st' K fallback = value_of file K /\
       config_geta st' K fallback = value_of file K).
Proof.
  split; [apply config_get_unlocked_tiers|].
  intros ovr file Ho Hl Hf Hk.
  eexists. split; [apply (config_load_success _ _ _ _ _ _ Ho Hl)|].
  assert (E : config_get_unlocked_
                {| defaults := defaults st; overrides := None;
                   config := Some (merge_overrides file ovr) |} K fallback
              = value_of file K).
  { unfold config_get_unlocked_. simpl.
    rewrite merge_overrides_absent by exact Hk.
    rewrite dictionary_get_value_of, Hf. reflexivity. }
  split; [exact E|].
  unfold config_geta. rewrite E. unfold strdup.
  destruct (value_of file K); reflexivity.
Qed.

(** C2: a key set with [config_set] before the load reads, once
    [config_load] has succeeded, as the value set, whatever the file says
    about it; the load leaves [overrides] null. Further setters may run
    between the [config_set] and the load as long as none sets the key
    again. *)
Theorem C2_override_survives_load (st : config_state) (K : string)
  (V fallback default_path : option string) (later : list setter)
  (ovr file : dictionary) (buf : list ascii) (lg : log_state) :
  config st = None ->
  overrides st = Some ovr ->
  unique_keys ovr ->
  forallb (fun s => negb (sets_key K s)) later = true ->
  let st1 := run_setters later (snd (config_set K V st)) in
  iniparser_load
    (config_get_unlocked_ st1 "global:configFile" default_path) = Some file ->
  exists st',
    snd (config_load iniparser_load default_path buf st1 lg)
      = Ret (0, st') /\
    overrides st' = None /\
    config_get_unlocked_ st' K fallback = V /\
    config_geta st' K fallback = V.
Proof.
  intros Hc Ho Hu Hl st1 Hload.
  destruct (run_setters_preserve K later (snd (config_set K V st))
              (dictionary_set ovr K V))
    as (ovr' & H1 & H2 & H3 & H4 & H5).
  - unfold config_set. rewrite Ho. exact Hc.
  - unfold config_set. rewrite Ho. reflexivity.
  - apply dictionary_set_keys_unique, Hu.
  - exact Hl.
  - fold st1 in H1, H2.
    eexists. split; [apply (config_load_success _ _ _ _ _ _ H2 Hload)|].
    split; [reflexivity|].
    assert (E : config_get_unlocked_
                  {| defaults := defaults st1; overrides := None;
                     config := Some (merge_overrides file ovr') |} K fallback
                = V).
    { unfold config_get_unlocked_. simpl.
      rewrite has_key_set, String.eqb_refl in H4. simpl in H4.
      rewrite merge_overrides_present by assumption.
      rewrite H5.
      pose proof (dictionary_get_value_of (dictionary_set ovr K V) K None) as E.
      rewrite dictionary_get_set_same, has_key_set, String.eqb_refl in E.
      simpl in E. symmetry. exact E. }
    split; [exact E|].
    unfold config_geta. rewrite E. destruct V; reflexivity.
Qed.

(** C3: when the parser fails, [config_load] returns the error value,
    [config] is null, [overrides] and [defaults] are as they were, and
    every lookup resolves through [overrides] and then [defaults]; a store
    that had no [config] is left exactly as it was. *)
Theorem C3_load_failure_is_atomic (st : config_state)
  (default_path : option string) (buf : list ascii) (lg : log_state) :
  iniparser_load
    (config_get_unlocked_ st "global:configFile" default_path) = None ->
  exists st',
    snd (config_load iniparser_load default_path buf st lg)
      = Ret (-1, st') /\
    config st' = None /\
    overrides st' = overrides st /\
    defaults st' = defaults st /\
    (config st = None -> st' = st) /\
    (forall K fallback,
       config_get_unlocked_ st' K fallback =
       iniparser_getstring (overrides st) K
         (iniparser_getstring (defaults st) K fallback)).
Proof.
  intros Hl. unfold config_load. rewrite Hl. eexists.
  split; [reflexivity|]. simpl. repeat split.
  intros Hc. destruct st as [d o c]. simpl in *. subst c. reflexivity.
Qed.

End ConfigFacts.

(** ** Buffers *)

Section BufferFacts.
Import CStr Iniparser Config Spec.
Local Open Scope nat_scope.

Lemma length_bytes s : length (bytes s) = strlen s.
Proof.
  unfold bytes, strlen. induction s; simpl; [reflexivity|]. now f_equal.
Qed.

Lemma c_str_bytes s rest : nul_free s -> c_str (bytes s ++ NUL :: rest) = s.
Proof.
  unfold nul_free, bytes. induction s as [|c s IH]; simpl; intros H.
  - reflexivity.
  - apply Forall_cons in H as [Hc Hs].
    destruct (Ascii.eqb c NUL) eqn:E.
    + apply Ascii.eqb_eq in E. contradiction.
    + f_equal. apply IH, Hs.
Qed.

Lemma c_str_padded s k rest :
  nul_free s -> c_str (bytes s ++ replicate k NUL ++ NUL :: rest) = s.
Proof.
  intros H. destruct k; simpl; apply c_str_bytes, H.
Qed.

(** A NUL at offset [i] bounds the length of the string read. *)
Lemma c_str_terminated m : forall i,
  m !! i = Some NUL -> String.length (c_str m) <= i.
Proof.
  induction m as [|c m IH]; intros i Hi; simpl.
  - lia.
  - destruct i as [|i]; simpl in Hi.
    + injection Hi as ->. simpl. lia.
    + destruct (Ascii.eqb c NUL); simpl; [lia|].
      specialize (IH i Hi). lia.
Qed.

(** Storing the terminator in the last of [S m] copied bytes. *)
Lemma terminate_copy (X rest : list ascii) m :
  m < length X ->
  <[m := NUL]> (take (S m) X ++ rest) = take m X ++ NUL :: rest.
Proof.
  intros Hm.
  destruct (lookup_lt_is_Some_2 X m Hm) as [x Hx].
  rewrite (take_S_r X m x Hx), <- app_assoc. simpl.
  assert (Hlen : length (take m X) = m) by (rewrite length_take; lia).
  rewrite <- Hlen at 1.
  replace (length (take m X)) with (length (take m X) + 0) by lia.
  rewrite insert_app_r. reflexivity.
Qed.

(** The buffer [config_get] leaves when a value resolves. *)
Lemma config_get_copies st key defval s b m :
  config_get_unlocked_ st key defval = Some s ->
  S m <= length b ->
  config_get st key defval (Some b) (S m) =
    (strlen s + 1,
     Some (take m (bytes s ++ replicate (S m) NUL) ++ NUL :: drop (S m) b)).
Proof.
  intros Hr Hm. unfold config_get. rewrite Hr.
  f_equal. f_equal. unfold strncpy.
  replace (S m - 1) with m by lia.
  rewrite terminate_copy by (rewrite length_app, length_replicate; lia).
  do 2 f_equal. destruct b; simpl; [simpl in Hm; lia|reflexivity].
Qed.

(** The buffer [config_get] leaves when nothing resolves. *)
Lemma config_get_unresolved st key defval b m :
  config_get_unlocked_ st key defval = None ->
  S m <= length b ->
  config_get st key defval (Some b) (S m) =
    (0, Some (<[m := NUL]> (<[0 := NUL]> b))).
Proof.
  intros Hr Hm. unfold config_get. rewrite Hr.
  replace (S m - 1) with m by lia.
  rewrite list_insert_insert_eq. reflexivity.
Qed.

(** A value that fits is followed by padding up to [bufsize]. *)
Lemma config_get_fits st key defval s b n :
  config_get_unlocked_ st key defval = Some s ->
  strlen s < n -> n <= length b ->
  config_get st key defval (Some b) n =
    (strlen s + 1,
     Some (bytes s ++ replicate (n - 1 - strlen s) NUL ++ NUL :: drop n b)).
Proof.
  intros Hr Hs Hn. destruct n as [|m]; [lia|].
  rewrite (config_get_copies _ _ _ s) by assumption.
  do 2 f_equal. rewrite (app_assoc (bytes s)). f_equal.
  rewrite take_app_ge by (rewrite length_bytes; lia).
  rewrite length_bytes, take_replicate. do 2 f_equal. lia.
Qed.

End BufferFacts.

(** ** The string getters *)

Section GetterFacts.
Import CStr Iniparser Config Spec.
Local Open Scope nat_scope.

Lemma absent_resolves_to_fallback st K fallback :
  holds (config st) K = false ->
  holds (overrides st) K = false ->
  holds (defaults st) K = false ->
  config_get_unlocked_ st K fallback = fallback.
Proof.
  intros Hc Ho Hd. rewrite config_get_unlocked_tiers.
  unfold tier_resolution. rewrite Hc, Ho, Hd, andb_false_r. reflexivity.
Qed.

(** C7, as stated, fails: a five-byte fallback asked for with a
    three-byte buffer comes back cut to two bytes. *)
Lemma C7_fallback_truncated :
  let st := {| defaults := Some []; overrides := Some []; config := None |} in
  holds (config st) "k" = false /\
  holds (overrides st) "k" = false /\
  holds (defaults st) "k" = false /\
  config_get st "k" (Some "hello") (Some ["x"; "x"; "x"]%char) 3 =
    (6, Some ["h"; "e"; NUL]%char) /\
  c_str ["h"; "e"; NUL]%char <> "hello".
Proof.
  simpl. repeat split; discriminate.
Qed.

(** C7, amended: for a key absent from [config], [overrides] and
    [defaults], [config_get] leaves the fallback string, byte for byte and
    terminated, at the start of the caller's buffer whenever [bufsize]
    exceeds the fallback's length. *)
Theorem C7_fallback_copied_when_it_fits (st : config_state) (K fallback : string)
  (b : list ascii) (bufsize : nat) :
  holds (config st) K = false ->
  holds (overrides st) K = false ->
  holds (defaults st) K = false ->
  strlen fallback < bufsize ->
  bufsize <= length b ->
  exists b',
    config_get st K (Some fallback) (Some b) bufsize =
      (strlen fallback + 1, Some b') /\
    take (strlen fallback + 1) b' = bytes fallback ++ [NUL] /\
    (nul_free fallback -> c_str b' = fallback).
Proof.
  intros Hc Ho Hd Hlen Hb.
  pose proof (absent_resolves_to_fallback st K (Some fallback) Hc Ho Hd) as Hr.
  eexists. split; [apply (config_get_fits _ _ _ _ _ _ Hr Hlen Hb)|]. split.
  - destruct (bufsize - 1 - strlen fallback) as [|k] eqn:E; simpl.
    + rewrite take_app_ge by (rewrite length_bytes; lia).
      rewrite length_bytes.
      replace (strlen fallback + 1 - strlen fallback) with 1 by lia.
      reflexivity.
    + rewrite take_app_ge by (rewrite length_bytes; lia).
      rewrite length_bytes.
      replace (strlen fallback + 1 - strlen fallback) with 1 by lia.
      reflexivity.
  - intros Hn. apply c_str_padded, Hn.
Qed.

(** C8, as stated, fails: [config_geta] returns the whole value where
    [config_get] with a three-byte buffer leaves its first two bytes. *)
Lemma C8_getters_disagree :
  let st := {| defaults := Some [("k", Some "hello")]; overrides := Some [];
               config := None |} in
  config_geta st "k" None = Some "hello" /\
  config_get st "k" None (Some ["x"; "x"; "x"]%char) 3 =
    (6, Some ["h"; "e"; NUL]%char) /\
  c_str ["h"; "e"; NUL]%char <> "hello".
Proof.
  simpl. repeat split; discriminate.
Qed.

(** C8, amended: when a value resolves and [bufsize] exceeds its length,
    the string [config_geta] returns equals the string [config_get] leaves
    in the buffer; when nothing resolves [config_geta] returns NULL and
    [config_get] leaves the empty string. *)
Theorem C8_getters_agree_when_it_fits (st : config_state) (key : string)
  (defval : option string) (b : list ascii) (bufsize : nat) :
  0 < bufsize ->
  bufsize <= length b ->
  exists b',
    snd (config_get st key defval (Some b) bufsize) = Some b' /\
    match config_geta st key defval with
    | Some s => nul_free s -> strlen s < bufsize -> c_str b' = s
    | None => c_str b' = EmptyString
    end.
Proof.
  intros Hpos Hb. unfold config_geta, strdup.
  destruct (config_get_unlocked_ st key defval) as [s|] eqn:Hr.
  - destruct (Nat.lt_ge_cases (strlen s) bufsize) as [Hfit|Hbig].
    + eexists. rewrite (config_get_fits _ _ _ _ _ _ Hr Hfit Hb). simpl.
      split; [reflexivity|]. intros Hn _. apply c_str_padded, Hn.
    + destruct bufsize as [|m]; [lia|].
      eexists. rewrite (config_get_copies _ _ _ _ _ _ Hr Hb). simpl.
      split; [reflexivity|]. intros _ Hfit. lia.
  - destruct bufsize as [|m]; [lia|].
    eexists. rewrite (config_get_unresolved _ _ _ _ _ Hr Hb). simpl.
    split; [reflexivity|].
    destruct b as [|c b]; [simpl in Hb; lia|].
    destruct m; reflexivity.
Qed.

(** C9: with a buffer and a non-zero [bufsize], [config_get] leaves the
    buffer terminated within [bufsize] bytes, its last byte NUL, holding
    the value cut to [bufsize - 1] bytes when it is longer, and touches
    nothing beyond; it returns the length of the resolved value plus one,
    or 0 when nothing resolves, whatever [bufsize] is; with no buffer or a
    zero [bufsize] it writes nothing and returns the same number. *)
Theorem C9_config_get_bounded (st : config_state) (key : string)
  (defval : option string) (b : list ascii) (bufsize : nat) :
  let r := match config_get_unlocked_ st key defval with
           | Some s => strlen s + 1
           | None => 0
           end in
  config_get st key defval None bufsize = (r, None) /\
  config_get st key defval (Some b) 0 = (r, Some b) /\
  (0 < bufsize -> bufsize <= length b ->
   exists b',
     config_get st key defval (Some b) bufsize = (r, Some b') /\
     length b' = length b /\
     b' !! (bufsize - 1) = Some NUL /\
     strlen (c_str b') < bufsize /\
     drop bufsize b' = drop bufsize b /\
     match config_get_unlocked_ st key defval with
     | Some s =>
         (bufsize - 1 < strlen s ->
          take (bufsize - 1) b' = take (bufsize - 1) (bytes s)) /\
         (strlen s <= bufsize - 1 ->
          take (strlen s + 1) b' = bytes s ++ [NUL])
     | None => c_str b' = EmptyString
     end).
Proof.
  intros r. subst r. split; [reflexivity|]. split; [reflexivity|].
  intros Hpos Hb. destruct bufsize as [|m]; [lia|].
  replace (S m - 1) with m by lia.
  destruct (config_get_unlocked_ st key defval) as [s|] eqn:Hr.
  - rewrite (config_get_copies _ _ _ _ _ _ Hr Hb).
    set (X := bytes s ++ replicate (S m) NUL).
    assert (HX : m <= length X)
      by (unfold X; rewrite length_app, length_replicate; lia).
    assert (Hlen : length (take m X) = m) by (rewrite length_take; lia).
    assert (Hlast : (take m X ++ NUL :: drop (S m) b) !! m = Some NUL).
    { rewrite lookup_app_r by lia. rewrite Hlen, Nat.sub_diag. reflexivity. }
    eexists. split; [reflexivity|]. repeat split.
    + rewrite length_app, Hlen. simpl. rewrite length_drop. lia.
    + exact Hlast.
    + pose proof (c_str_terminated _ _ Hlast). unfold strlen. lia.
    + rewrite drop_app_ge by lia. rewrite Hlen.
      replace (S m - m) with 1 by lia. reflexivity.
    + intros Hlong. rewrite take_app_le by lia.
      rewrite take_ge by lia. unfold X.
      rewrite take_app_le by (rewrite length_bytes; lia). reflexivity.
    + intros Hfit. unfold X.
      rewrite (take_app_ge (bytes s)) by (rewrite length_bytes; lia).
      rewrite length_bytes, take_replicate, <- app_assoc.
      rewrite take_app_ge by (rewrite length_bytes; lia).
      rewrite length_bytes.
      replace (strlen s + 1 - strlen s) with 1 by lia.
      destruct (Nat.min _ _); reflexivity.
  - rewrite (config_get_unresolved _ _ _ _ _ Hr Hb).
    assert (Hm : m < length (<[0:=NUL]> b)) by (rewrite length_insert; lia).
    eexists. split; [reflexivity|]. repeat split.
    + rewrite !length_insert. reflexivity.
    + apply list_lookup_insert_eq, Hm.
    + pose proof (c_str_terminated _ _ (list_lookup_insert_eq _ _ NUL Hm)).
      unfold strlen. lia.
    + rewrite drop_insert_lt by lia. rewrite drop_insert_lt by lia.
      reflexivity.
    + destruct b as [|c b]; [simpl in Hb; lia|]. destruct m; reflexivity.
Qed.

End GetterFacts.

(** ** Iterating a section *)

Section GetAllFacts.
Import CStr Iniparser Config Spec.

Context {A : Type}.
Variable fn : string -> option string -> A -> Z * A.

Lemma prefix_step a s b k :
  String.prefix (String a s) (String b k) = Ascii.eqb b a && String.prefix s k.
Proof.
  change (String.prefix (String a s) (String b k))
    with (if Ascii.ascii_dec a b then String.prefix s k else false).
  destruct (Ascii.ascii_dec a b) as [<-|Hne].
  - rewrite Ascii.eqb_refl. reflexivity.
  - assert (E : Ascii.eqb b a = false) by (apply Ascii.eqb_neq; congruence).
    rewrite E. reflexivity.
Qed.

Lemma entry_matches_empty key k :
  entry_matches EmptyString key k = key_selected EmptyString key k.
Proof.
  unfold entry_matches, key_selected, strcmp_eq.
  destruct k as [|b k].
  - destruct key; reflexivity.
  - destruct key as [key|].
    + simpl. replace (offset k 0) with k by (destruct k; reflexivity).
      destruct (Ascii.eqb b ":"); reflexivity.
    + change (EmptyString +:+ ":") with (String ":" EmptyString).
      rewrite prefix_step. simpl char_at.
      destruct k; simpl; rewrite !andb_true_r; reflexivity.
Qed.

Lemma entry_matches_step a section key b k :
  entry_matches (String a section) key (String b k) =
  Ascii.eqb b a && entry_matches section key k.
Proof.
  unfold entry_matches. simpl.
  destruct (Ascii.eqb b a); reflexivity.
Qed.

Lemma key_selected_step a section key b k :
  key_selected (String a section) key (String b k) =
  Ascii.eqb b a && key_selected section key k.
Proof.
  unfold key_selected. destruct key as [key|].
  - reflexivity.
  - change (String a section +:+ ":") with (String a (section +:+ ":")).
    apply prefix_step.
Qed.

(** The test in the loop selects the keys made of the section, a colon,
    and the wanted suffix. *)
Lemma entry_matches_selected section key : forall k,
  entry_matches section key k = key_selected section key k.
Proof.
  induction section as [|a section IH]; intros k.
  - apply entry_matches_empty.
  - destruct k as [|b k].
    + unfold entry_matches, key_selected. destruct key; reflexivity.
    + rewrite entry_matches_step, key_selected_step, IH. reflexivity.
Qed.

Lemma get_all_loop_visit section key d : forall a,
  get_all_loop fn section key d a =
  visit fn (List.filter (fun e => key_selected section key (fst e)) d) a.
Proof.
  induction d as [|[k v] d IH]; intros a; simpl; [reflexivity|].
  rewrite entry_matches_selected.
  destruct (key_selected section key k); simpl.
  - destruct (fn k v a) as [x a']. destruct (x =? 0); [|reflexivity].
    rewrite IH. reflexivity.
  - apply IH.
Qed.

(** The calls made are an initial run of the entries offered; success
    means every entry was called on, failure that a call was made. *)
Lemma visit_initial_run l : forall a r a' calls,
  visit fn l a = (r, a', calls) ->
  exists rest, l = calls ++ rest /\
    ((r = 0 /\ rest = []) \/ (r = -1 /\ calls <> [])).
Proof.
  induction l as [|[k v] l IH]; simpl; intros a r a' calls H.
  - injection H as <- <- <-. exists []. auto.
  - destruct (fn k v a) as [x a1]. destruct (x =? 0).
    + destruct (visit fn l a1) as [[r1 a2] calls1] eqn:E.
      injection H as <- <- <-.
      destruct (IH _ _ _ _ E) as (rest & -> & Hr).
      exists rest. split; [reflexivity|].
      destruct Hr as [[-> ->]|[-> _]]; [left; auto|right; split; [auto|discriminate]].
    + injection H as <- <- <-. exists l. split; [reflexivity|].
      right. split; [reflexivity|discriminate].
Qed.

(** C4: [config_get_all] calls back on exactly the entries of the
    resolved dictionary whose key is the section, a colon, and (when a key
    is given) that key, in dictionary order; the first non-zero return of
    the callback stops the iteration and makes the result -1, otherwise
    the result is 0. *)
Theorem C4_get_all_visits_selected (st : config_state) (section : string)
  (key : option string) (a : A) (d : dictionary) :
  resolved_dictionary st = Some d ->
  let selected := List.filter (fun e => key_selected section key (fst e)) d in
  config_get_all fn st section key a = Ret (visit fn selected a) /\
  exists r a' calls rest,
    visit fn selected a = (r, a', calls) /\
    selected = calls ++ rest /\
    ((r = 0 /\ rest = []) \/ (r = -1 /\ calls <> [])).
Proof.
  intros Hd selected. split.
  - unfold config_get_all. unfold resolved_dictionary in Hd.
    destruct (config st) as [c|].
    + injection Hd as ->. rewrite get_all_loop_visit. reflexivity.
    + rewrite Hd, get_all_loop_visit. reflexivity.
  - destruct (visit fn selected a) as [[r a'] calls] eqn:E.
    destruct (visit_initial_run _ _ _ _ _ E) as (rest & H1 & H2).
    exists r, a', calls, rest. auto.
Qed.

(** C10: [config_get_all] walks [config], or [overrides] before the load,
    and never [defaults]: a key found only in [defaults] is never handed
    to the callback, although [config_get] resolves it to its default. *)
Theorem C10_get_all_skips_defaults (st : config_state) (K section : string)
  (key fallback : option string) (a : A) :
  holds (config st) K = false ->
  holds (overrides st) K = false ->
  holds (defaults st) K = true ->
  config_get_unlocked_ st K fallback = held_value (defaults st) K /\
  match config_get_all fn st section key a with
  | Ret (_, _, calls) => K ∉ calls.*1
  | Fault => resolved_dictionary st = None
  end.
Proof.
  intros Hc Ho Hd. split.
  - rewrite config_get_unlocked_tiers. unfold tier_resolution.
    rewrite Hc, Ho, Hd, andb_false_r. reflexivity.
  - assert (Hres : holds (resolved_dictionary st) K = false).
    { unfold resolved_dictionary. destruct (config st); assumption. }
    unfold config_get_all. fold (resolved_dictionary st).
    replace (match config st with Some _ => config st | None => overrides st end)
      with (resolved_dictionary st)
      by (unfold resolved_dictionary; destruct (config st); reflexivity).
    destruct (resolved_dictionary st) as [d|]; [|reflexivity].
    rewrite get_all_loop_visit.
    destruct (visit fn _ a) as [[r a'] calls] eqn:E.
    destruct (visit_initial_run _ _ _ _ _ E) as (rest & H1 & _).
    intros Hin. simpl in Hres.
    assert (Hk : K ∈ d.*1).
    { apply list_elem_of_fmap in Hin as (e & -> & He).
      apply list_elem_of_fmap. exists e. split; [reflexivity|].
      assert (He' : e ∈ List.filter
                (fun e => key_selected section key (fst e)) d)
        by (rewrite H1; apply elem_of_app; left; exact He).
      apply list_elem_of_In, filter_In in He' as [He' _].
      apply list_elem_of_In, He'. }
    apply has_key_elem in Hk. congruence.
Qed.

End GetAllFacts.

(** ** Booleans *)

Section BoolFacts.
Import CStr Iniparser Config Spec.

Lemma affirmative_first_byte s :
  (let c := toupper (char_at s 0) in
   Ascii.eqb c "Y" || Ascii.eqb c "T" || Ascii.eqb c "1")
  = starts_affirmative s.
Proof.
  destruct s as [|c s]; [reflexivity|].
  unfold starts_affirmative. simpl char_at.
  destruct c as [[] [] [] [] [] [] [] []]; reflexivity.
Qed.

Lemma config_get_bool_resolved st key defval :
  config_get_bool st key defval =
  match config_get_unlocked_ st key None with
  | Some s => if starts_affirmative s then -1 else truthiness (atoi s)
  | None => truthiness defval
  end.
Proof.
  unfold config_get_bool.
  destruct (config_get_unlocked_ st key None) as [s|]; [|reflexivity].
  pose proof (affirmative_first_byte s) as E. simpl in E. rewrite E.
  destruct (starts_affirmative s); reflexivity.
Qed.

(** C5: [config_get_bool] is true (-1) for a stored value whose first
    character is one of Y, y, T, t, 1; any other stored value is read as
    an integer and is true exactly when that integer is not zero, so that
    "Y", "yes", "T", "true" and "1" read true and "0", "no", "false" and
    the empty string read false; a key absent from every tier gives the
    truthiness of [defval]. *)
Theorem C5_config_get_bool_parse (st : config_state) (key : string)
  (defval : Z) :
  (forall s, config_get_unlocked_ st key None = Some s ->
     (starts_affirmative s = true -> config_get_bool st key defval = -1) /\
     (starts_affirmative s = false ->
        (atoi s <> 0 -> config_get_bool st key defval = -1) /\
        (atoi s = 0 -> config_get_bool st key defval = 0)) /\
     (In s ["Y"; "yes"; "T"; "true"; "1"] ->
        config_get_bool st key defval = -1) /\
     (In s ["0"; "no"; "false"; EmptyString] ->
        config_get_bool st key defval = 0)) /\
  (holds (config st) key = false ->
   holds (overrides st) key = false ->
   holds (defaults st) key = false ->
   config_get_bool st key defval = if defval =? 0 then 0 else -1).
Proof.
  split.
  - intros s Hs. rewrite config_get_bool_resolved, Hs.
    split; [|split; [|split]].
    + intros ->. reflexivity.
    + intros ->. unfold truthiness. split; intros Hn.
      * destruct (atoi s =? 0) eqn:E; [|reflexivity].
        apply Z.eqb_eq in E. contradiction.
      * rewrite Hn. reflexivity.
    + simpl. intros [<-|[<-|[<-|[<-|[<-|[]]]]]]; reflexivity.
    + simpl. intros [<-|[<-|[<-|[<-|[]]]]]; reflexivity.
  - intros Hc Ho Hd. rewrite config_get_bool_resolved.
    rewrite (absent_resolves_to_fallback st key None Hc Ho Hd).
    reflexivity.
Qed.

End BoolFacts.

(** ** The logger *)

Section LogFacts.
Import CStr Iniparser Config Log Spec.

Lemma log_reset_events st :
  Forall channel_event (snd (log_reset st)).
Proof.
  unfold log_reset. simpl.
  destruct (negb (log_is_open st =? 0) && negb (log_syslog st =? 0));
    repeat constructor.
Qed.

(** Opening the channel emits no message. *)
Lemma log_open_events cfg buf st :
  Forall channel_event (snd (log_open cfg buf st)).
Proof.
  unfold log_open.
  pose proof (log_reset_events st) as Hr.
  destruct (log_is_open st =? 0).
  - destruct (log_use_config st =? 0); simpl;
      match goal with
      | |- context [if ?c then [] else _] => destruct c
      end; repeat constructor.
  - destruct (log_reset st) as [st0 ev0]. simpl in Hr.
    destruct (log_use_config st0 =? 0); simpl;
      match goal with
      | |- context [if ?c then [] else _] => destruct c
      end; apply Forall_app; split; try assumption; repeat constructor.
Qed.

Lemma log_vprintf_emission cfg buf level (m : message) st :
  log_vprintf cfg buf level m st =
  (fst (opened cfg buf st),
   snd (opened cfg buf st) ++
   emission (fst (opened cfg buf st)) level m).
Proof.
  unfold log_vprintf, opened, emission.
  destruct (log_is_open st =? 0).
  - destruct (log_open cfg buf st) as [st1 ev]. simpl.
    destruct (level >? log_level st1); [rewrite app_nil_r; reflexivity|].
    destruct (log_syslog st1 =? 0); reflexivity.
  - simpl. destruct (level >? log_level st); [reflexivity|].
    destruct (log_syslog st =? 0); reflexivity.
Qed.

(** C6: with [st1] the logger's state once the channel is open, a message
    whose level is greater than the threshold [log_level st1] is dropped;
    any other goes to [vsyslog] when [log_syslog st1] is set, and to
    standard error, after the identity string, a colon and a space, when
    it is not. Opening the channel emits no message, and [log_printf] does
    what [log_vprintf] does. *)
Theorem C6_emission_gated_and_routed (cfg : config_state) (buf : list ascii)
  (level : Z) (m : message) (st : log_state) :
  let st1 := fst (opened cfg buf st) in
  let ev := snd (opened cfg buf st) in
  Forall channel_event ev /\
  (log_is_open st <> 0 -> st1 = st /\ ev = []) /\
  (level > log_level st1 -> log_vprintf cfg buf level m st = (st1, ev)) /\
  (level <= log_level st1 -> log_syslog st1 <> 0 ->
   log_vprintf cfg buf level m st = (st1, ev ++ [Vsyslog level m])) /\
  (level <= log_level st1 -> log_syslog st1 = 0 ->
   log_vprintf cfg buf level m st =
     (st1, ev ++ [StderrText (log_ident st1 +:+ ": "); StderrFormatted m])) /\
  log_printf cfg buf level m st = log_vprintf cfg buf level m st.
Proof.
  intros st1 ev. rewrite log_vprintf_emission. fold st1 ev.
  split; [|split; [|split; [|split; [|split]]]].
  - unfold ev, opened. destruct (log_is_open st =? 0).
    + apply log_open_events.
    + constructor.
  - intros Hopen. unfold st1, ev, opened.
    apply Z.eqb_neq in Hopen. rewrite Hopen. split; reflexivity.
  - intros Hgt. unfold emission.
    apply Z.gtb_gt in Hgt. rewrite Hgt, app_nil_r. reflexivity.
  - intros Hle Hsys. unfold emission.
    destruct (level >? log_level st1) eqn:E; [apply Z.gtb_gt in E; lia|].
    apply Z.eqb_neq in Hsys. rewrite Hsys. reflexivity.
  - intros Hle Hsys. unfold emission.
    destruct (level >? log_level st1) eqn:E; [apply Z.gtb_gt in E; lia|].
    rewrite Hsys. reflexivity.
  - unfold log_printf. apply log_vprintf_emission.
Qed.

End LogFacts.

(** ** Worked instances *)

Section Instances.
Import CStr Iniparser Config Log Loader Spec Sample.

Lemma unique_keys_store0 : unique_keys [("x:y", Some "o")].
Proof. apply NoDup_singleton. Defined.

Lemma C1_file_value_instance :
  exists st',
    snd (config_load one_file (Some "/etc/x.conf") (replicate 32 "x"%char)
           store0 log_initial) = Ret (0, st') /\
    config_get_unlocked_ st' "s:k" (Some "fb") = Some "file" /\
    config_geta st' "s:k" (Some "fb") = Some "file".
Proof.
  destruct (C1_tier_order_resolution one_file store0 "s:k" (Some "fb")
              (Some "/etc/x.conf") (replicate 32 "x"%char) log_initial)
    as [_ H].
  apply (H [("x:y", Some "o")] [("s:k", Some "file")]); reflexivity.
Defined.

Lemma C2_override_instance :
  exists st',
    snd (config_load one_file (Some "/etc/x.conf") (replicate 32 "x"%char)
           (run_setters [CallSetDefault "s:k" (Some "dflt");
                         CallSet "other:k" (Some "z")]
              (snd (config_set "s:k" (Some "override") store0)))
           log_initial) = Ret (0, st') /\
    overrides st' = None /\
    config_get_unlocked_ st' "s:k" (Some "fb") = Some "override" /\
    config_geta st' "s:k" (Some "fb") = Some "override".
Proof.
  apply (C2_override_survives_load one_file store0 "s:k" (Some "override")
           (Some "fb") (Some "/etc/x.conf")
           [CallSetDefault "s:k" (Some "dflt"); CallSet "other:k" (Some "z")]
           [("x:y", Some "o")] [("s:k", Some "file")]
           (replicate 32 "x"%char) log_initial);
    try reflexivity.
  apply unique_keys_store0.
Defined.

Lemma C3_failed_load_instance :
  exists st',
    snd (config_load one_file (Some "/missing.conf") (replicate 32 "x"%char)
           store0 log_initial) = Ret (-1, st') /\
    config st' = None /\
    overrides st' = overrides store0 /\
    defaults st' = defaults store0 /\
    (config store0 = None -> st' = store0) /\
    (forall K fallback,
       config_get_unlocked_ st' K fallback =
       iniparser_getstring (overrides store0) K
         (iniparser_getstring (defaults store0) K fallback)).
Proof.
  apply (C3_load_failure_is_atomic one_file store0 (Some "/missing.conf")
           (replicate 32 "x"%char) log_initial).
  reflexivity.
Defined.

Lemma C4_early_stop_instance :
  config_get_all stop_at_stop store_log "log" None 0%nat =
    Ret (-1, 2%nat, [("log:level", Some "info"); ("log:stop", Some "1")]).
Proof.
  destruct (C4_get_all_visits_selected stop_at_stop store_log "log" None 0%nat
              [("log:level", Some "info"); ("other:x", None);
               ("log:stop", Some "1"); ("log:after", Some "2")] eq_refl)
    as [H _].
  exact H.
Defined.

Lemma C5_yes_instance :
  config_get_bool
    {| defaults := Some [("log:stderr", Some "yes")]; overrides := Some [];
       config := None |} "log:stderr" 0 = -1.
Proof.
  destruct (C5_config_get_bool_parse
              {| defaults := Some [("log:stderr", Some "yes")];
                 overrides := Some []; config := None |} "log:stderr" 0)
    as [H _].
  destruct (H "yes" eq_refl) as (_ & _ & Hyes & _).
  apply Hyes. simpl. auto.
Defined.

Lemma C6_stderr_instance :
  let st := {| log_is_open := 1; log_use_config := 0; log_stderr := 0;
               log_level := LOG_NOTICE; log_facility := LOG_DAEMON;
               log_syslog := 0; log_ident := "svc" |} in
  let m := {| format := "disk full"; arguments := [] |} in
  log_vprintf store0 (replicate 32 "x"%char) LOG_ERR m st =
    (st, [StderrText "svc: "; StderrFormatted m]).
Proof.
  intros st m.
  destruct (C6_emission_gated_and_routed store0
              (replicate 32 "x"%char) LOG_ERR m st)
    as (_ & _ & _ & _ & H & _).
  apply H; [vm_compute; discriminate|reflexivity].
Defined.

Lemma C7_fallback_instance :
  exists b',
    config_get store0 "global:configFile" (Some "/etc/x.conf")
      (Some (replicate 16 "x"%char)) 16 = (12%nat, Some b') /\
    take 12 b' = bytes "/etc/x.conf" ++ [NUL] /\
    c_str b' = "/etc/x.conf".
Proof.
  destruct (C7_fallback_copied_when_it_fits store0 "global:configFile"
              "/etc/x.conf" (replicate 16 "x"%char) 16)
    as (b' & H1 & H2 & H3);
    try reflexivity; try (vm_compute; lia).
  exists b'. split; [exact H1|]. split; [exact H2|].
  apply H3. unfold nul_free. simpl. repeat constructor; discriminate.
Defined.

Lemma C8_agreement_instance :
  exists b',
    snd (config_get store0 "log:level" None (Some (replicate 8 "x"%char)) 8)
      = Some b' /\
    config_geta store0 "log:level" None = Some "debug" /\
    c_str b' = "debug".
Proof.
  destruct (C8_getters_agree_when_it_fits store0 "log:level" None
              (replicate 8 "x"%char) 8) as (b' & H1 & H2);
    try (vm_compute; lia).
  exists b'. split; [exact H1|]. split; [reflexivity|].
  apply H2.
  - unfold nul_free. simpl. repeat constructor; discriminate.
  - vm_compute. lia.
Defined.

Lemma C9_truncation_instance :
  exists b',
    config_get store0 "log:level" None (Some (replicate 6 "x"%char)) 3 =
      (6%nat, Some b') /\
    length b' = 6%nat /\
    b' !! 2%nat = Some NUL /\
    (strlen (c_str b') < 3)%nat /\
    drop 3 b' = replicate 3 "x"%char /\
    take 2 b' = ["d"; "e"]%char.
Proof.
  destruct (C9_config_get_bounded store0 "log:level" None
              (replicate 6 "x"%char) 3) as (_ & _ & H).
  destruct H as (b' & H1 & H2 & H3 & H4 & H5 & H6 & _);
    try (vm_compute; lia).
  exists b'. repeat (split; [assumption|]).
  apply H6. vm_compute. lia.
Defined.

Lemma C10_default_only_instance :
  config_get_unlocked_ store_log "log:ident" None = Some "svc" /\
  match config_get_all stop_at_stop store_log "log" None 0%nat with
  | Ret (_, _, calls) => "log:ident" ∉ calls.*1
  | Fault => resolved_dictionary store_log = None
  end.
Proof.
  apply (C10_get_all_skips_defaults stop_at_stop store_log "log:ident" "log"
           None None 0%nat); reflexivity.
Defined.

End Instances.

(** ** Setting and resetting the store *)

Section StoreFacts.
Import CStr Iniparser Config Log Loader Spec Wf Sample.

Variable iniparser_load : option string -> option dictionary.



(** X2: [config_set] on one key changes the lookup of no other key, and
    leaves [defaults] as it was. *)
Theorem X2_config_set_frames_other_keys (st : config_state) (K K' : string)
  (V fallback : option string) :
  K' <> K ->
  config_get_unlocked_ (snd (config_set K V st)) K' fallback =
    config_get_unlocked_ st K' fallback /\
  defaults (snd (config_set K V st)) = defaults st.
Proof.
  intros Hne. unfold config_set, config_get_unlocked_.
  destruct (overrides st) as [o|] eqn:Ho; simpl.
  - split; [|reflexivity].
    destruct (config st); [reflexivity|]. simpl.
    apply dictionary_get_set_other, Hne.
  - split; [|reflexivity].
    destruct (config st) as [c|]; simpl.
    + apply dictionary_get_set_other, Hne.
    + reflexivity.
Qed.

Lemma X2_config_set_frames_instance :
  config_get_unlocked_ (snd (config_set "log:level" (Some "info") store0))
    "x:y" None = config_get_unlocked_ store0 "x:y" None /\
  defaults (snd (config_set "log:level" (Some "info") store0)) =
    defaults store0.
Proof.
  apply (X2_config_set_frames_other_keys store0 "log:level" "x:y").
  discriminate.
Defined.

(** X3: before [config_init] both setters return 0 and store nothing,
    every lookup yields the caller's fallback, and [config_get_all]
    dereferences a null dictionary. *)
Theorem X3_uninitialised_store (K : string) (V fallback : option string)
  (defval : Z) :
  config_set K V uninitialized = (0, uninitialized) /\
  config_set_default K V uninitialized = (0, uninitialized) /\
  config_get_unlocked_ uninitialized K fallback = fallback /\
  config_get_int uninitialized K defval = defval /\
  config_get_bool uninitialized K defval = truthiness defval /\
  (forall (A : Type) (fn : string -> option string -> A -> Z * A)
     section key a,
     config_get_all fn uninitialized section key a = Fault).
Proof.
  repeat split.
Qed.



(** X5: [config_set_default] never changes [overrides]; it changes
    [config] only when [defaults] is null and [config] yields nothing for
    the key, and [defaults] only when [defaults] exists. *)
Theorem X5_config_set_default_targets (st : config_state) (K : string)
  (V : option string) :
  let st' := snd (config_set_default K V st) in
  overrides st' = overrides st /\
  (is_Some (defaults st) -> config st' = config st) /\
  (defaults st = None -> defaults st' = None) /\
  (defaults st = None ->
   is_Some (iniparser_getstring (config st) K None) -> st' = st).
Proof.
  unfold config_set_default.
  destruct (defaults st) as [d|] eqn:Hd; simpl.
  - split; [reflexivity|]. split; [reflexivity|].
    split; intros; discriminate.
  - destruct (iniparser_getstring (config st) K None) eqn:Hg; simpl.
    + split; [reflexivity|]. split; [intros [? ?]; discriminate|].
      split; [intros _; exact Hd|reflexivity].
    + split; [reflexivity|]. split; [intros [? ?]; discriminate|].
      split; [reflexivity|]. intros _ [? ?]. discriminate.
Qed.

Lemma X5_config_set_default_targets_instance :
  let st := {| defaults := None; overrides := None;
               config := Some [("s:k", Some "file")] |} in
  snd (config_set_default "s:k" (Some "dflt") st) = st.
Proof.
  intros st.
  destruct (X5_config_set_default_targets st "s:k" (Some "dflt"))
    as (_ & _ & _ & H).
  apply H; [reflexivity|]. exists "file". reflexivity.
Defined.

End StoreFacts.

(** ** Initialising and loading *)

Section LoadFacts.
Import CStr Iniparser Config Log Loader Spec Wf Sample.

Variable iniparser_load : option string -> option dictionary.



(** X8: a [config_init] that succeeds without a callback discards every
    default and every pending override recorded before, and keeps
    [config]; on a store with no [config] every lookup then yields the
    caller's fallback and [config_get_all] makes no call. *)
Theorem X8_config_init_starts_afresh (st : config_state) (K : string)
  (fallback : option string) (defval : Z) :
  let st' :=
    snd (config_init (Some dictionary_new) (Some dictionary_new) None st) in
  defaults st' = Some [] /\ overrides st' = Some [] /\
  config st' = config st /\
  (config st = None ->
   config_get_unlocked_ st' K fallback = fallback /\
   config_get_int st' K defval = defval /\
   config_get_bool st' K defval = truthiness defval /\
   forall (A : Type) (fn : string -> option string -> A -> Z * A)
     section key a,
     config_get_all fn st' section key a = Ret (0, a, [])).
Proof.
  simpl. split; [reflexivity|]. split; [reflexivity|]. split; [reflexivity|].
  intros Hc. unfold config_get_unlocked_, config_get_int, config_get_bool,
    config_get_all, config_get_unlocked_. simpl. rewrite Hc. simpl.
  repeat split.
Qed.

(** X9: the file [config_load] hands to the parser is the value of
    [global:configFile]: once that key has been set with [config_set] the
    load's outcome depends on the parser at that path only, whatever
    [default_path] is; when no dictionary holds the key the outcome
    depends on the parser at [default_path] only. *)
Theorem X9_load_path_resolution (st : config_state) (P : string)
  (default_path default_path' : option string)
  (iniparser_load' : option string -> option dictionary)
  (buf : list ascii) (lg : log_state) :
  config st = None ->
  is_Some (overrides st) ->
  (iniparser_load (Some P) = iniparser_load' (Some P) ->
   let st1 := snd (config_set "global:configFile" (Some P) st) in
   snd (config_load iniparser_load default_path buf st1 lg) =
   snd (config_load iniparser_load' default_path' buf st1 lg)) /\
  (holds (overrides st) "global:configFile" = false ->
   holds (defaults st) "global:configFile" = false ->
   iniparser_load default_path = iniparser_load' default_path ->
   snd (config_load iniparser_load default_path buf st lg) =
   snd (config_load iniparser_load' default_path buf st lg)).
Proof.
  intros Hc Ho. split.
  - intros HP st1.
    assert (E : forall dp,
      config_get_unlocked_ st1 "global:configFile" dp = Some P).
    { intros dp. destruct Ho as [o Ho].
      unfold st1, config_set, config_get_unlocked_. rewrite Ho. simpl.
      rewrite Hc. simpl. apply dictionary_get_set_same. }
    unfold config_load. rewrite !E, HP. reflexivity.
  - intros Hko Hkd Hdp.
    assert (E : config_get_unlocked_ st "global:configFile" default_path
                = default_path).
    { apply absent_resolves_to_fallback; try assumption.
      rewrite Hc. reflexivity. }
    unfold config_load. rewrite !E, Hdp. reflexivity.
Qed.

End LoadFacts.

Section LoadInstances.
Import CStr Iniparser Config Log Loader Spec Wf Sample.


Lemma X8_config_init_instance :
  let st' :=
    snd (config_init (Some dictionary_new) (Some dictionary_new) None store0) in
  config_get_unlocked_ st' "x:y" (Some "fb") = Some "fb" /\
  config_get_unlocked_ store0 "x:y" (Some "fb") = Some "o".
Proof.
  destruct (X8_config_init_starts_afresh store0 "x:y" (Some "fb") 0)
    as (_ & _ & _ & H).
  destruct (H eq_refl) as (H1 & _).
  split; [exact H1|reflexivity].
Defined.

Lemma X9_load_path_instance :
  let st1 := snd (config_set "global:configFile" (Some "/etc/x.conf") store0) in
  snd (config_load one_file (Some "/gone.conf") (replicate 32 "x"%char)
         st1 log_initial) =
  snd (config_load one_file None (replicate 32 "x"%char) st1 log_initial).
Proof.
  destruct (X9_load_path_resolution one_file store0 "/etc/x.conf"
              (Some "/gone.conf") None one_file (replicate 32 "x"%char)
              log_initial eq_refl) as [H _].
  - exists [("x:y", Some "o")]. reflexivity.
  - apply H. reflexivity.
Defined.


End LoadInstances.

(** ** Order and uniqueness of keys *)

Section KeyFacts.
Import CStr Iniparser Config Log Loader Spec Wf Sample.

Variable iniparser_load : option string -> option dictionary.

Lemma dictionary_set_keys d k v :
  (dictionary_set d k v).*1 = if has_key d k then d.*1 else d.*1 ++ [k].
Proof.
  unfold has_key. induction d as [|[k0 v0] d IH]; [reflexivity|].
  cbn [dictionary_set existsb fst].
  destruct (String.eqb k k0); [reflexivity|].
  rewrite fmap_cons, IH. cbn [orb].
  match goal with |- context [existsb ?f d] => destruct (existsb f d) end;
    reflexivity.
Qed.

Lemma merge_overrides_keys ovr : forall cfg,
  unique_keys ovr ->
  (merge_overrides cfg ovr).*1 =
  cfg.*1 ++ List.filter (fun k => negb (has_key cfg k)) (ovr.*1).
Proof.
  unfold merge_overrides, unique_keys.
  induction ovr as [|[k v] ovr IH]; simpl; intros cfg Hu.
  - rewrite app_nil_r. reflexivity.
  - apply NoDup_cons in Hu as [Hn Hu].
    rewrite IH by exact Hu. rewrite dictionary_set_keys.
    assert (Hf : List.filter
                   (fun k' => negb (has_key (dictionary_set cfg k v) k'))
                   (ovr.*1)
                 = List.filter (fun k' => negb (has_key cfg k')) (ovr.*1)).
    { apply filter_ext_in. intros k' Hin. rewrite has_key_set.
      assert (E : String.eqb k' k = false).
      { apply String.eqb_neq. intros ->. apply Hn, list_elem_of_In, Hin. }
      rewrite E. reflexivity. }
    rewrite Hf. destruct (has_key cfg k); simpl; [reflexivity|].
    rewrite <- app_assoc. reflexivity.
Qed.

Lemma merge_overrides_unique ovr : forall cfg,
  unique_keys cfg -> unique_keys (merge_overrides cfg ovr).
Proof.
  unfold merge_overrides.
  induction ovr as [|[k v] ovr IH]; simpl; intros cfg Hu; [exact Hu|].
  apply IH, dictionary_set_keys_unique, Hu.
Qed.

(** X10: a successful load keeps the keys of the file in the file's
    order and appends, in the order they were first set, the override
    keys the file does not have. *)
Theorem X10_load_keeps_file_order (st : config_state)
  (default_path : option string) (buf : list ascii) (lg : log_state)
  (ovr file : dictionary) :
  overrides st = Some ovr ->
  unique_keys ovr ->
  iniparser_load
    (config_get_unlocked_ st "global:configFile" default_path) = Some file ->
  exists st' c,
    snd (config_load iniparser_load default_path buf st lg) = Ret (0, st') /\
    config st' = Some c /\
    c.*1 = file.*1 ++ List.filter (fun k => negb (has_key file k)) (ovr.*1) /\
    (length file <= length c <= length file + length ovr)%nat.
Proof.
  intros Ho Hu Hl.
  eexists. eexists.
  split; [apply (config_load_success _ _ _ _ _ _ _ Ho Hl)|].
  split; [reflexivity|].
  pose proof (merge_overrides_keys ovr file Hu) as Hk.
  split; [exact Hk|].
  apply (f_equal length) in Hk.
  rewrite length_app, !length_fmap in Hk.
  pose proof (filter_length_le (fun k => negb (has_key file k)) (ovr.*1)) as Hle.
  rewrite length_fmap in Hle. unfold dictionary, entry in *. lia.
Qed.

(** X11: the setters, a fresh [config_init] and a load whose parser
    returns each key once all keep every dictionary of the store free of
    duplicate keys. *)
Theorem X11_unique_keys_invariant (st : config_state) (K : string)
  (V default_path : option string) (buf : list ascii) (lg : log_state) :
  unique_store st ->
  unique_store (snd (config_set K V st)) /\
  unique_store (snd (config_set_default K V st)) /\
  unique_store
    (snd (config_init (Some dictionary_new) (Some dictionary_new) None st)) /\
  (unique_if_set
     (iniparser_load
        (config_get_unlocked_ st "global:configFile" default_path)) ->
   forall r st',
     snd (config_load iniparser_load default_path buf st lg) = Ret (r, st') ->
     unique_store st').
Proof.
  destruct st as [d o c]. unfold unique_store. simpl.
  intros (Hd & Ho & Hc).
  split; [|split; [|split]].
  - unfold config_set; simpl. destruct o as [o|]; simpl.
    + repeat split; try assumption. apply dictionary_set_keys_unique, Ho.
    + destruct c as [c|]; simpl; repeat split; try assumption.
      apply dictionary_set_keys_unique, Hc.
  - unfold config_set_default; simpl. destruct d as [d|]; simpl.
    + repeat split; try assumption. apply dictionary_set_keys_unique, Hd.
    + destruct (iniparser_getstring c K None); simpl;
        [repeat split; assumption|].
      destruct c as [c|]; simpl; repeat split; try assumption.
      apply dictionary_set_keys_unique, Hc.
  - simpl. repeat split; try apply NoDup_nil_2. exact Hc.
  - intros Hf r st' H. unfold config_load in H. simpl in H.
    destruct (iniparser_load _) as [f|]; simpl in *.
    + destruct o as [o|]; [|discriminate]. injection H as <- <-. simpl.
      repeat split; try assumption. apply merge_overrides_unique, Hf.
    + injection H as <- <-. simpl. repeat split; assumption.
Qed.

End KeyFacts.

Section KeyInstances.
Import CStr Iniparser Config Log Loader Spec Wf Sample.

Lemma X10_load_order_instance :
  exists st' c,
    snd (config_load one_file (Some "/etc/x.conf") (replicate 32 "x"%char)
           store0 log_initial) = Ret (0, st') /\
    config st' = Some c /\
    c.*1 = ["s:k"; "x:y"] /\
    (1 <= length c <= 2)%nat.
Proof.
  apply (X10_load_keeps_file_order one_file store0 (Some "/etc/x.conf")
           (replicate 32 "x"%char) log_initial
           [("x:y", Some "o")] [("s:k", Some "file")] eq_refl
           unique_keys_store0 eq_refl).
Defined.

Lemma unique_store0 : unique_store store0.
Proof.
  unfold unique_store, store0. simpl.
  repeat split; try apply NoDup_singleton.
Defined.

Lemma X11_unique_keys_instance :
  unique_store (snd (config_set "x:y" (Some "p") store0)) /\
  unique_store (snd (config_set_default "x:y" (Some "p") store0)).
Proof.
  destruct (X11_unique_keys_invariant one_file store0 "x:y" (Some "p") None
              (replicate 32 "x"%char) log_initial unique_store0)
    as (H1 & H2 & _).
  split; assumption.
Defined.

End KeyInstances.

(** ** What the callback is handed *)

Section CallbackFacts.
Import CStr Iniparser Config Log Loader Spec Wf Sample.

Context {A : Type}.
Variable fn : string -> option string -> A -> Z * A.

Lemma unique_entry_get d : forall k v def,
  unique_keys d -> (k, v) ∈ d -> dictionary_get d k def = v.
Proof.
  unfold unique_keys.
  induction d as [|[k0 v0] d IH]; intros k v def Hu Hin.
  - inversion Hin.
  - apply NoDup_cons in Hu as [Hn Hu]. simpl.
    apply elem_of_cons in Hin as [Heq|Hin].
    + injection Heq as -> ->. rewrite String.eqb_refl. reflexivity.
    + destruct (String.eqb k k0) eqn:E.
      * apply String.eqb_eq in E. subst k0. exfalso. apply Hn.
        apply list_elem_of_fmap. exists (k, v). auto.
      * apply IH; assumption.
Qed.

Lemma filter_keys_unique (p : entry -> bool) d :
  unique_keys d -> unique_keys (List.filter p d).
Proof.
  unfold unique_keys.
  induction d as [|e d IH]; simpl; intros Hu; [exact Hu|].
  apply NoDup_cons in Hu as [Hn Hu].
  destruct (p e); [|apply IH, Hu].
  rewrite fmap_cons. apply NoDup_cons. split; [|apply IH, Hu].
  intros Hin. apply Hn.
  apply list_elem_of_fmap in Hin as (e' & -> & He').
  apply list_elem_of_fmap. exists e'. split; [reflexivity|].
  apply list_elem_of_In. apply list_elem_of_In, filter_In in He'. tauto.
Qed.

Lemma config_get_all_runs st section key a d :
  resolved_dictionary st = Some d ->
  config_get_all fn st section key a =
    Ret (visit fn
           (List.filter (fun e => key_selected section key (fst e)) d) a).
Proof.
  unfold resolved_dictionary, config_get_all. intros Hd.
  destruct (config st) as [c|].
  - injection Hd as ->. rewrite get_all_loop_visit. reflexivity.
  - rewrite Hd, get_all_loop_visit. reflexivity.
Qed.

(** X12: when the dictionary in force holds each key once,
    [config_get_all] hands no key to the callback twice, makes no more
    calls than the dictionary has entries, and every value it hands over
    is the one a lookup of that key returns. *)
Theorem X12_callback_sees_each_key_once (st : config_state)
  (section : string) (key : option string) (a : A) (d : dictionary) :
  resolved_dictionary st = Some d ->
  unique_keys d ->
  exists r a' calls,
    config_get_all fn st section key a = Ret (r, a', calls) /\
    NoDup (calls.*1) /\
    (length calls <= length d)%nat /\
    forall k v fallback,
      (k, v) ∈ calls ->
      key_selected section key k = true /\
      config_get_unlocked_ st k fallback = v.
Proof.
  intros Hd Hu.
  pose proof (config_get_all_runs st section key a d Hd) as Hrun.
  destruct (visit fn
              (List.filter (fun e => key_selected section key (fst e)) d) a)
    as [[r a'] calls] eqn:Hv.
  destruct (visit_initial_run fn _ _ _ _ _ Hv) as (rest & Hsel & _).
  exists r, a', calls. split; [exact Hrun|].
  assert (Hf : NoDup ((calls ++ rest).*1)).
  { rewrite <- Hsel. apply filter_keys_unique, Hu. }
  rewrite fmap_app in Hf. apply NoDup_app in Hf as (Hnd & _ & _).
  split; [exact Hnd|]. split.
  - assert (Hle : (length (calls ++ rest) <= length d)%nat).
    { rewrite <- Hsel. apply filter_length_le. }
    rewrite length_app in Hle. unfold dictionary, entry in *. lia.
  - intros k v fallback Hin.
    assert (Hin' : In (k, v) (calls ++ rest))
      by (apply list_elem_of_In, elem_of_app; left; exact Hin).
    rewrite <- Hsel in Hin'. apply filter_In in Hin' as [Hind Hk].
    split; [exact Hk|].
    apply list_elem_of_In in Hind.
    unfold resolved_dictionary in Hd. unfold config_get_unlocked_.
    destruct (config st) as [c|].
    + injection Hd as ->. simpl. apply unique_entry_get; assumption.
    + rewrite Hd. simpl. apply unique_entry_get; assumption.
Qed.




End CallbackFacts.

Section CallbackInstances.
Import CStr Iniparser Config Log Loader Spec Wf Sample.

Lemma unique_keys_store_log :
  unique_keys [("log:level", Some "info"); ("other:x", None);
               ("log:stop", Some "1"); ("log:after", Some "2")].
Proof.
  unfold unique_keys. simpl.
  repeat (apply NoDup_cons; split;
          [rewrite ?elem_of_cons, elem_of_nil; intuition discriminate|]).
  apply NoDup_nil_2.
Defined.

Lemma X12_callback_instance :
  exists r a' calls,
    config_get_all stop_at_stop store_log "log" None 0%nat
      = Ret (r, a', calls) /\
    NoDup (calls.*1) /\
    (length calls <= 4)%nat /\
    forall k v fallback,
      (k, v) ∈ calls ->
      key_selected "log" None k = true /\
      config_get_unlocked_ store_log k fallback = v.
Proof.
  apply (X12_callback_sees_each_key_once stop_at_stop store_log "log" None
           0%nat _ eq_refl unique_keys_store_log).
Defined.


End CallbackInstances.

(** ** Re-initialising, probing, numbers *)

Section ValueFacts.
Import CStr Iniparser Config Log Loader Spec Wf Sample.
Local Open Scope nat_scope.



(** X15: measuring and then fetching works: a buffer of exactly the
    number of bytes [config_get] reports when probed with no buffer
    receives the whole value and its terminator. *)
Theorem X15_probe_then_fetch (st : config_state) (key : string)
  (defval : option string) (s : string) (b : list ascii) :
  config_get_unlocked_ st key defval = Some s ->
  let r := fst (config_get st key defval None 0) in
  length b = r ->
  r = strlen s + 1 /\
  config_get st key defval (Some b) r = (r, Some (bytes s ++ [NUL])) /\
  (nul_free s -> c_str (bytes s ++ [NUL]) = s).
Proof.
  intros Hr r Hb.
  assert (Er : r = strlen s + 1)
    by (unfold r, config_get; rewrite Hr; reflexivity).
  clearbody r. rewrite Er in *. split; [reflexivity|]. split.
  - rewrite (config_get_fits st key defval s b (strlen s + 1) Hr) by lia.
    replace (strlen s + 1 - 1 - strlen s) with 0 by lia.
    rewrite drop_ge by lia. reflexivity.
  - intros Hn. apply (c_str_bytes s [] Hn).
Qed.

Lemma X15_probe_then_fetch_instance :
  fst (config_get store0 "log:level" None None 0) = 6 /\
  config_get store0 "log:level" None (Some (replicate 6 "x"%char)) 6 =
    (6, Some (bytes "debug" ++ [NUL])).
Proof.
  destruct (X15_probe_then_fetch store0 "log:level" None "debug"
              (replicate 6 "x"%char) eq_refl eq_refl) as (H1 & H2 & _).
  split; [exact H1|exact H2].
Defined.

Lemma atoi_in_int_range s : int_range (atoi s).
Proof.
  unfold int_range, atoi, int_of_long.
  pose proof (Z.mod_pos_bound (strtol10 s + 2 ^ 31) (2 ^ 32)%Z eq_refl).
  lia.
Qed.

(** X16: [config_get_int] returns [defval] only when nothing resolves; a
    value that resolves is converted whether or not it is a number, the
    result lies in the range of [int], and it is 0 when the value is
    blank or its first non-blank character is neither a digit nor a
    sign. *)
Theorem X16_config_get_int_parse (st : config_state) (key : string)
  (defval : Z) :
  (config_get_unlocked_ st key None = None ->
   config_get_int st key defval = defval) /\
  (forall s, config_get_unlocked_ st key None = Some s ->
     config_get_int st key defval = atoi s /\
     int_range (config_get_int st key defval) /\
     (skip_spaces s = EmptyString -> config_get_int st key defval = 0%Z) /\
     (forall c t, skip_spaces s = String c t ->
        isdigit c = false -> code c <> 45%Z -> code c <> 43%Z ->
        config_get_int st key defval = 0%Z)).
Proof.
  unfold config_get_int. split.
  - intros ->. reflexivity.
  - intros s ->. split; [reflexivity|]. split; [apply atoi_in_int_range|].
    unfold atoi, strtol10. split.
    + intros ->. reflexivity.
    + intros c t -> Hd Hm Hp.
      apply Z.eqb_neq in Hm, Hp. rewrite Hm, Hp. simpl. rewrite Hd.
      reflexivity.
Qed.

Lemma X16_config_get_int_instance :
  config_get_int store0 "log:level" 42 = 0%Z /\
  config_get_int store0 "log:missing" 42 = 42%Z.
Proof.
  destruct (X16_config_get_int_parse store0 "log:level" 42) as [_ H].
  destruct (H "debug" eq_refl) as (_ & _ & _ & H0).
  destruct (X16_config_get_int_parse store0 "log:missing" 42) as [H1 _].
  split.
  - apply (H0 "d"%char "ebug"); [reflexivity|reflexivity|discriminate|discriminate].
  - apply H1. reflexivity.
Defined.

(** X17: [config_get_bool] returns 0 or -1 and nothing else, and it is
    true whenever [config_get_int] of the same key and default is not
    zero. *)
Theorem X17_bool_covers_int (st : config_state) (key : string) (defval : Z) :
  (config_get_bool st key defval = 0%Z \/
   config_get_bool st key defval = (-1)%Z) /\
  (config_get_int st key defval <> 0%Z ->
   config_get_bool st key defval = (-1)%Z).
Proof.
  rewrite config_get_bool_resolved. unfold config_get_int, truthiness.
  destruct (config_get_unlocked_ st key None) as [s|].
  - destruct (starts_affirmative s); [auto|].
    destruct (atoi s =? 0)%Z eqn:E; [|auto].
    apply Z.eqb_eq in E. split; [auto|]. intros H. contradiction.
  - destruct (defval =? 0)%Z eqn:E; [|auto].
    apply Z.eqb_eq in E. split; [auto|]. intros H. contradiction.
Qed.

Lemma X17_bool_covers_int_instance :
  config_get_bool
    {| defaults := Some [("n", Some "  -7 units")]; overrides := Some [];
       config := None |} "n" 0 = (-1)%Z.
Proof.
  apply (X17_bool_covers_int
           {| defaults := Some [("n", Some "  -7 units")];
              overrides := Some []; config := None |} "n" 0).
  vm_compute. discriminate.
Defined.

End ValueFacts.

(** ** Names of levels and facilities *)

Section NameFacts.
Import CStr Iniparser Config Log Loader Spec Wf Sample.

Lemma tolower_idempotent c : tolower (tolower c) = tolower c.
Proof. destruct c as [[] [] [] [] [] [] [] []]; reflexivity. Qed.

Lemma isspace_tolower c : isspace (tolower c) = isspace c.
Proof. destruct c as [[] [] [] [] [] [] [] []]; reflexivity. Qed.

Lemma isdigit_tolower c : isdigit (tolower c) = isdigit c.
Proof. destruct c as [[] [] [] [] [] [] [] []]; reflexivity. Qed.

Lemma digit_tolower c : isdigit c = true -> tolower c = c.
Proof. destruct c as [[] [] [] [] [] [] [] []]; (reflexivity || discriminate). Qed.

Lemma sign_tolower c z :
  z = 45 \/ z = 43 -> (code (tolower c) =? z) = (code c =? z).
Proof.
  intros [->| ->]; destruct c as [[] [] [] [] [] [] [] []]; reflexivity.
Qed.

Lemma strcasecmp_lowercase a : forall b,
  strcasecmp_eq a b = String.eqb (lowercase a) (lowercase b).
Proof.
  induction a as [|c a IH]; intros [|d b]; simpl; try reflexivity.
  rewrite IH. reflexivity.
Qed.

Lemma lowercase_idempotent s : lowercase (lowercase s) = lowercase s.
Proof.
  induction s as [|c s IH]; simpl; [reflexivity|].
  rewrite tolower_idempotent, IH. reflexivity.
Qed.

Lemma strcasecmp_of_lowercase s name :
  strcasecmp_eq (lowercase s) name = strcasecmp_eq s name.
Proof.
  rewrite !strcasecmp_lowercase, lowercase_idempotent. reflexivity.
Qed.

Lemma skip_spaces_lowercase s :
  skip_spaces (lowercase s) = lowercase (skip_spaces s).
Proof.
  induction s as [|c s IH]; simpl; [reflexivity|].
  rewrite isspace_tolower. destruct (isspace c); [exact IH|reflexivity].
Qed.

Lemma digits_value_lowercase s : forall acc,
  digits_value acc (lowercase s) = digits_value acc s.
Proof.
  induction s as [|c s IH]; intros acc; simpl; [reflexivity|].
  rewrite isdigit_tolower. destruct (isdigit c) eqn:E; [|reflexivity].
  rewrite (digit_tolower c E). apply IH.
Qed.

Lemma atoi_lowercase s : atoi (lowercase s) = atoi s.
Proof.
  unfold atoi, strtol10. rewrite skip_spaces_lowercase.
  destruct (skip_spaces s) as [|c t]; simpl; [reflexivity|].
  rewrite !sign_tolower by auto. rewrite digits_value_lowercase.
  replace (if isdigit (tolower c)
           then digits_value (0 * 10 + (code (tolower c) - 48)) (lowercase t)
           else 0)
    with (if isdigit c
          then digits_value (0 * 10 + (code c - 48)) t else 0).
  - reflexivity.
  - rewrite isdigit_tolower. destruct (isdigit c) eqn:E; [|reflexivity].
    rewrite (digit_tolower c E), digits_value_lowercase. reflexivity.
Qed.

Lemma log_parse_level_lowercase s :
  log_parse_level (lowercase s) = log_parse_level s.
Proof.
  unfold log_parse_level.
  rewrite !strcasecmp_of_lowercase, atoi_lowercase. reflexivity.
Qed.

Lemma log_parse_facility_lowercase s :
  log_parse_facility (lowercase s) = log_parse_facility s.
Proof.
  unfold log_parse_facility.
  rewrite !strcasecmp_of_lowercase. reflexivity.
Qed.

(** X18: level and facility names are read without regard to letter
    case: two strings that [strcasecmp] finds equal give the same level
    and the same facility, also when neither is a known name and the
    level is read as a number. *)
Theorem X18_names_ignore_case (a b : string) :
  strcasecmp_eq a b = true ->
  log_parse_level a = log_parse_level b /\
  log_parse_facility a = log_parse_facility b.
Proof.
  rewrite strcasecmp_lowercase. intros H. apply String.eqb_eq in H.
  rewrite <- (log_parse_level_lowercase a), <- (log_parse_level_lowercase b).
  rewrite <- (log_parse_facility_lowercase a),
          <- (log_parse_facility_lowercase b).
  rewrite H. split; reflexivity.
Qed.

Lemma X18_names_ignore_case_instance :
  log_parse_level "WaRnInG" = LOG_WARNING /\
  log_parse_facility "WaRnInG" = LOG_USER.
Proof.
  apply (X18_names_ignore_case "WaRnInG" "warning"). reflexivity.
Defined.

(** X19: whatever the string, [log_parse_facility] returns one of the
    facility codes: a multiple of 8 between [LOG_KERN] and [LOG_LOCAL7],
    with [LOG_USER] for a name it does not know. *)
Theorem X19_facility_always_valid (facility : string) :
  facility_code (log_parse_facility facility) /\
  (log_parse_facility (lowercase facility) = log_parse_facility facility) /\
  (Forall (fun name => strcasecmp_eq facility name = false)
     ["auth"; "authpriv"; "cron"; "daemon"; "ftp"; "kern"; "lpr"; "mail";
      "news"; "syslog"; "uucp"; "local0"; "local1"; "local2"; "local3";
      "local4"; "local5"; "local6"; "local7"] ->
   log_parse_facility facility = LOG_USER).
Proof.
  split; [|split; [apply log_parse_facility_lowercase|]].
  - unfold log_parse_facility, facility_code.
    repeat match goal with
           | |- context [if ?c then _ else _] => destruct c
           end; (split; [vm_compute; split; discriminate|reflexivity]).
  - intros H. unfold log_parse_facility.
    repeat (apply Forall_cons in H; destruct H as [?E H]).
    repeat match goal with
           | E : strcasecmp_eq _ _ = false |- _ => rewrite E; clear E
           end.
    destruct (strcasecmp_eq facility "user"); reflexivity.
Qed.

Lemma X19_facility_instance :
  log_parse_facility "no such facility" = LOG_USER.
Proof.
  destruct (X19_facility_always_valid "no such facility") as (_ & _ & H).
  apply H. repeat constructor.
Defined.

End NameFacts.

(** ** The logger's channel *)

Section ChannelFacts.
Import CStr Iniparser Config Log Loader Spec Wf Sample.

(** X20: each of [log_set_ident], [log_set_level], [log_set_facility],
    [log_set_stderr] and [log_set_syslog] stores its argument, leaves the
    other settings alone, switches configuration-driven mode off and
    marks the channel closed; it calls [closelog] exactly when the channel
    was open and the syslog flag, as it is after the assignment, is
    set. *)
Theorem X20_direct_setters (s : direct_setter) (st : log_state) :
  let st' := fst (run_direct_setter s st) in
  st' = with_is_open 0 (assigned s st) /\
  log_is_open st' = 0 /\
  log_use_config st' = 0 /\
  snd (run_direct_setter s st) =
    (if negb (log_is_open st =? 0) && negb (log_syslog (assigned s st) =? 0)
     then [Closelog] else []).
Proof.
  destruct s; repeat split.
Qed.

(** X21: switching syslog routing off with [log_set_syslog(0)] never
    calls [closelog], not even when the channel to syslog is open, whereas
    any other setter called at that point does call it; after either the
    channel counts as closed, and a later [log_reset] has nothing left to
    close. *)
Theorem X21_syslog_off_skips_closelog (st : log_state) (level : Z) :
  snd (log_set_syslog 0 st) = [] /\
  snd (log_reset (fst (log_set_syslog 0 st))) = [] /\
  (log_is_open st <> 0 -> log_syslog st <> 0 ->
   snd (log_set_level level st) = [Closelog] /\
   snd (log_reset st) = [Closelog]).
Proof.
  split; [|split].
  - unfold log_set_syslog, set_field, log_reset. simpl.
    rewrite andb_false_r. reflexivity.
  - reflexivity.
  - intros Ho Hs. apply Z.eqb_neq in Ho, Hs.
    unfold log_set_level, set_field, log_reset. simpl.
    rewrite Ho, Hs. split; reflexivity.
Qed.

Lemma X21_syslog_off_instance :
  let st := with_is_open 1 log_initial in
  snd (log_set_syslog 0 st) = [] /\
  snd (log_set_level LOG_DEBUG st) = [Closelog].
Proof.
  intros st.
  destruct (X21_syslog_off_skips_closelog st LOG_DEBUG) as (H1 & _ & H3).
  split; [exact H1|].
  apply H3; discriminate.
Defined.

(** X22: [log_set_use_config] with the value already in force changes
    nothing and closes nothing; with another value it stores it and marks
    the channel closed; calling it twice with one value is the same as
    calling it once. *)
Theorem X22_use_config_toggle (val : Z) (st : log_state) :
  (log_use_config st = val -> log_set_use_config val st = (st, [])) /\
  (log_use_config st <> val ->
   log_use_config (fst (log_set_use_config val st)) = val /\
   log_is_open (fst (log_set_use_config val st)) = 0) /\
  log_set_use_config val (fst (log_set_use_config val st)) =
    (fst (log_set_use_config val st), []).
Proof.
  unfold log_set_use_config.
  destruct (log_use_config st =? val) eqn:E.
  - apply Z.eqb_eq in E. split; [reflexivity|].
    split; [intros H; contradiction|].
    simpl. apply Z.eqb_eq in E. rewrite E. reflexivity.
  - apply Z.eqb_neq in E. split; [intros H; contradiction|].
    split; [split; reflexivity|].
    simpl. rewrite Z.eqb_refl. reflexivity.
Qed.

Lemma X22_use_config_instance :
  log_set_use_config 0 log_initial = (log_initial, []) /\
  log_use_config (fst (log_set_use_config 1 log_initial)) = 1.
Proof.
  destruct (X22_use_config_toggle 0 log_initial) as (H1 & _ & _).
  destruct (X22_use_config_toggle 1 log_initial) as (_ & H2 & _).
  split; [apply H1; reflexivity|].
  apply H2. discriminate.
Defined.

Lemma log_open_marks_open cfg buf st :
  log_is_open (fst (log_open cfg buf st)) = 1.
Proof.
  unfold log_open.
  destruct (if log_is_open st =? 0 then (st, []) else log_reset st)
    as [st0 ev0].
  destruct (log_use_config st0 =? 0); reflexivity.
Qed.

(** X23: once a message has been through [log_vprintf] the channel is
    open, so the next message opens nothing, reads no configuration and
    changes no setting: it is emitted, or dropped, under the state the
    first one left. *)
Theorem X23_channel_opened_once (cfg cfg' : config_state)
  (buf buf' : list ascii) (level level' : Z) (m m' : message)
  (st : log_state) :
  let st1 := fst (log_vprintf cfg buf level m st) in
  log_is_open st1 <> 0 /\
  log_vprintf cfg' buf' level' m' st1 = (st1, emission st1 level' m').
Proof.
  intros st1.
  assert (Hopen : log_is_open st1 <> 0).
  { unfold st1. rewrite log_vprintf_emission. simpl. unfold opened.
    destruct (log_is_open st =? 0) eqn:E.
    - rewrite log_open_marks_open. discriminate.
    - apply Z.eqb_neq in E. exact E. }
  split; [exact Hopen|].
  rewrite log_vprintf_emission. unfold opened.
  apply Z.eqb_neq in Hopen. rewrite Hopen. reflexivity.
Qed.

(** X24: a setting made with one of the five setters governs the very
    next message: the channel is reopened with the identity, options and
    facility then in force ([openlog] being called only when syslog
    routing is on), the message is gated and routed by the new settings,
    and the configuration store is not read. *)
Theorem X24_setter_then_message (cfg : config_state) (buf : list ascii)
  (s : direct_setter) (level : Z) (m : message) (st : log_state) :
  let st1 := assigned s st in
  log_vprintf cfg buf level m (fst (run_direct_setter s st)) =
    (with_is_open 1 st1,
     (if log_syslog st1 =? 0 then []
      else [Openlog (log_ident st1) (open_options st1) (log_facility st1)])
     ++ emission st1 level m).
Proof.
  intros st1. rewrite log_vprintf_emission.
  replace (fst (run_direct_setter s st)) with (with_is_open 0 st1)
    by (destruct s; reflexivity).
  unfold opened, log_open, open_options, emission. simpl.
  destruct (log_stderr st1 =? 0); destruct (log_syslog st1 =? 0);
    reflexivity.
Qed.

End ChannelFacts.

(** ** Opening the channel from the configuration *)

Section ConfiguredFacts.
Import CStr Iniparser Config Log Loader Spec Wf Sample.

Lemma c_str_padding k rest : c_str (replicate k NUL ++ NUL :: rest) = EmptyString.
Proof. destruct k; reflexivity. Qed.

(** Reading back a copy cut to [n] bytes gives the first [n] bytes of the
    string. *)
Lemma c_str_truncated s : forall n m rest,
  nul_free s ->
  c_str (take n (bytes s ++ replicate m NUL) ++ NUL :: rest) =
  String.substring 0 n s.
Proof.
  unfold nul_free, bytes.
  induction s as [|c s IH]; intros n m rest Hs.
  - simpl. rewrite take_replicate, c_str_padding. destruct n; reflexivity.
  - apply Forall_cons in Hs as [Hc Hs].
    destruct n as [|n]; [reflexivity|]. simpl.
    destruct (Ascii.eqb c NUL) eqn:E.
    + apply Ascii.eqb_eq in E. contradiction.
    + f_equal. apply IH, Hs.
Qed.

(** What [log_open] reads with one [config_get] into its array. *)
Lemma config_get_read31 cfg key def b :
  (32 <= length b)%nat ->
  resolves_nul_free cfg key def ->
  exists b',
    snd (config_get cfg key (Some def) (Some b) 32) = Some b' /\
    length b' = length b /\
    c_str b' = read31 cfg key def.
Proof.
  unfold resolves_nul_free, read31. intros Hb Hn.
  destruct (config_get_unlocked_ cfg key (Some def)) as [s|] eqn:Hr.
  - rewrite (config_get_copies cfg key (Some def) s b 31 Hr Hb).
    eexists. split; [reflexivity|]. split.
    + rewrite length_app, length_take, length_app, length_replicate.
      rewrite length_cons, length_drop. lia.
    + apply c_str_truncated, Hn.
  - rewrite (config_get_unresolved cfg key (Some def) b 31 Hr Hb).
    eexists. split; [reflexivity|]. split.
    + rewrite !length_insert. reflexivity.
    + destruct b as [|c b]; [simpl in Hb; lia|]. reflexivity.
Qed.

(** A message that finds the channel closed in configuration-driven
    mode. *)
Lemma log_vprintf_configured (cfg : config_state) (buf : list ascii)
  (level : Z) (m : message) (st : log_state) :
  log_is_open st = 0 ->
  log_use_config st <> 0 ->
  (32 <= length buf)%nat ->
  resolves_nul_free cfg "log:level" "notice" ->
  resolves_nul_free cfg "log:facility" "user" ->
  resolves_nul_free cfg "log:ident" "(none)" ->
  let st1 :=
    {| log_is_open := 1;
       log_use_config := log_use_config st;
       log_stderr := config_get_bool cfg "log:stderr" 0;
       log_level := log_parse_level (read31 cfg "log:level" "notice");
       log_facility := log_parse_facility (read31 cfg "log:facility" "user");
       log_syslog := config_get_bool cfg "log:syslog" 1;
       log_ident := log_ident st |} in
  log_vprintf cfg buf level m st =
    (st1,
     (if log_syslog st1 =? 0 then []
      else [Openlog (read31 cfg "log:ident" "(none)") (open_options st1)
              (log_facility st1)])
     ++ emission st1 level m).
Proof.
  intros Hopen Huse Hb Hl Hf Hi st1.
  destruct (config_get_read31 cfg "log:level" "notice" buf Hb Hl)
    as (b1 & E1 & L1 & C1).
  assert (Hb1 : (32 <= length b1)%nat) by lia.
  destruct (config_get_read31 cfg "log:facility" "user" b1 Hb1 Hf)
    as (b2 & E2 & L2 & C2).
  assert (Hb2 : (32 <= length b2)%nat) by lia.
  destruct (config_get_read31 cfg "log:ident" "(none)" b2 Hb2 Hi)
    as (b3 & E3 & L3 & C3).
  apply Z.eqb_neq in Huse.
  assert (Ho : log_open cfg buf st =
            (st1,
             if log_syslog st1 =? 0 then []
             else [Openlog (read31 cfg "log:ident" "(none)")
                     (open_options st1) (log_facility st1)])).
  { unfold log_open. rewrite Hopen. change (0 =? 0) with true.
    cbv beta iota zeta. rewrite Huse. cbv beta iota zeta.
    rewrite E1. cbn [from_option id].
    rewrite E2. cbn [from_option id]. rewrite E3. cbn [from_option id].
    rewrite C1, C2, C3. unfold with_is_open, open_options, st1.
    cbn [log_is_open log_use_config log_stderr log_level log_facility
         log_syslog log_ident].
    destruct (config_get_bool cfg "log:stderr" 0 =? 0);
      destruct (config_get_bool cfg "log:syslog" 1 =? 0); reflexivity. }
  rewrite log_vprintf_emission. unfold opened.
  rewrite Hopen. change (0 =? 0) with true. cbv beta iota.
  rewrite Ho. reflexivity.
Qed.

(** X25: in configuration-driven mode a message that finds the channel
    closed makes the logger read its settings from the store: the flags
    [log:stderr] (default off) and [log:syslog] (default on) as
    [config_get_bool] reads them, the threshold and the facility parsed
    from the first 31 bytes of [log:level] (default notice) and
    [log:facility] (default user). The first 31 bytes of [log:ident]
    (default "(none)") go to [openlog] only: the identity string written
    before messages on standard error stays as it was. *)
Theorem X25_configured_open (cfg : config_state) (buf : list ascii)
  (level : Z) (m : message) (st : log_state) :
  log_is_open st = 0 ->
  log_use_config st <> 0 ->
  (32 <= length buf)%nat ->
  resolves_nul_free cfg "log:level" "notice" ->
  resolves_nul_free cfg "log:facility" "user" ->
  resolves_nul_free cfg "log:ident" "(none)" ->
  let st1 :=
    {| log_is_open := 1;
       log_use_config := log_use_config st;
       log_stderr := config_get_bool cfg "log:stderr" 0;
       log_level := log_parse_level (read31 cfg "log:level" "notice");
       log_facility := log_parse_facility (read31 cfg "log:facility" "user");
       log_syslog := config_get_bool cfg "log:syslog" 1;
       log_ident := log_ident st |} in
  log_vprintf cfg buf level m st =
    (st1,
     (if log_syslog st1 =? 0 then []
      else [Openlog (read31 cfg "log:ident" "(none)") (open_options st1)
              (log_facility st1)])
     ++ emission st1 level m).
Proof.
  apply log_vprintf_configured.
Qed.

(** X26: in configuration-driven mode, with none of the five [log:]
    keys in any dictionary, a message that finds the channel closed is
    handled with the threshold notice, the facility user and syslog
    routing on: [openlog] is called with the identity "(none)", and the
    message goes to [vsyslog] unless its level is above notice. *)
Theorem X26_configured_defaults (cfg : config_state) (buf : list ascii)
  (level : Z) (m : message) (st : log_state) :
  log_is_open st = 0 ->
  log_use_config st <> 0 ->
  (32 <= length buf)%nat ->
  Forall (fun k => holds (config cfg) k = false /\
                   holds (overrides cfg) k = false /\
                   holds (defaults cfg) k = false)
    ["log:stderr"; "log:syslog"; "log:level"; "log:facility"; "log:ident"] ->
  log_vprintf cfg buf level m st =
    ({| log_is_open := 1;
        log_use_config := log_use_config st;
        log_stderr := 0;
        log_level := LOG_NOTICE;
        log_facility := LOG_USER;
        log_syslog := -1;
        log_ident := log_ident st |},
     Openlog "(none)" (Z.lor LOG_NDELAY LOG_PID) LOG_USER
     :: (if level >? LOG_NOTICE then [] else [Vsyslog level m])).
Proof.
  intros Hopen Huse Hb Habs.
  assert (Hres : forall k d,
            k ∈ ["log:stderr"; "log:syslog"; "log:level"; "log:facility";
                 "log:ident"] ->
            config_get_unlocked_ cfg k d = d).
  { intros k d Hk. rewrite Forall_forall in Habs.
    destruct (Habs k Hk) as (H1 & H2 & H3).
    apply absent_resolves_to_fallback; assumption. }
  assert (Hin : forall k,
            In k ["log:stderr"; "log:syslog"; "log:level"; "log:facility";
                  "log:ident"] ->
            k ∈ ["log:stderr"; "log:syslog"; "log:level"; "log:facility";
                 "log:ident"])
    by (intros k Hk; apply list_elem_of_In, Hk).
  rewrite log_vprintf_configured; try assumption;
    unfold resolves_nul_free, read31, config_get_bool;
    rewrite ?Hres by (apply Hin; simpl; tauto).
  - unfold emission, open_options. simpl.
    change (log_parse_level "notice") with LOG_NOTICE.
    destruct (level >? LOG_NOTICE); reflexivity.
  - unfold nul_free. simpl. repeat constructor; discriminate.
  - unfold nul_free. simpl. repeat constructor; discriminate.
  - unfold nul_free. simpl. repeat constructor; discriminate.
Qed.

End ConfiguredFacts.

Section ConfiguredInstances.
Import CStr Iniparser Config Log Loader Spec Wf Sample.

Lemma nul_free_debug : nul_free "debug".
Proof. unfold nul_free. simpl. repeat constructor; discriminate. Defined.

Lemma nul_free_user : nul_free "user".
Proof. unfold nul_free. simpl. repeat constructor; discriminate. Defined.

Lemma nul_free_none : nul_free "(none)".
Proof. unfold nul_free. simpl. repeat constructor; discriminate. Defined.

Lemma X25_debug_level_instance :
  let st := fst (log_set_use_config 1 log_initial) in
  let m := {| format := "probe"; arguments := [] |} in
  snd (log_vprintf store0 (replicate 32 "x"%char) LOG_DEBUG m st) =
    [Openlog "(none)" (Z.lor LOG_NDELAY LOG_PID) LOG_USER;
     Vsyslog LOG_DEBUG m].
Proof.
  intros st m.
  rewrite (X25_configured_open store0 (replicate 32 "x"%char) LOG_DEBUG m st
             eq_refl);
    [reflexivity|discriminate|vm_compute; lia|
     exact nul_free_debug|exact nul_free_user|exact nul_free_none].
Defined.

Lemma X26_configured_defaults_instance :
  let st := fst (log_set_use_config 1 log_initial) in
  let m := {| format := "probe"; arguments := [] |} in
  snd (log_vprintf uninitialized (replicate 32 "x"%char) LOG_DEBUG m st) =
    [Openlog "(none)" (Z.lor LOG_NDELAY LOG_PID) LOG_USER].
Proof.
  intros st m.
  rewrite (X26_configured_defaults uninitialized (replicate 32 "x"%char)
             LOG_DEBUG m st eq_refl);
    [reflexivity|discriminate|vm_compute; lia|].
  repeat constructor.
Defined.

End ConfiguredInstances.
